(** * Isolation Forest (frds/algorithms/isolation_forest/src/IsolationForest.cpp)

    A shallow embedding of the tree-growing and scoring engine, and the
    properties of it that the specification states.

    Conventions of the embedding.
    - [size_t] values (sizes, counts, observation indices) are [nat]; the
      one place where the source can wrap around, the upper bound of
      [uniformDist], is written out in [N].
    - [int] values (the recursion height, [maxTreeHeight], the path
      length counter) are [Z]; they stay far below 2^31.
    - [DataType], the type of a numeric cell, is an IEEE-754 binary64
      value: Rocq's primitive [float].  The source only tests cells with
      [isnan] and compares them with [<=], which [PrimFloat.is_nan] and
      [PrimFloat.leb] do bit for bit.
    - The [double] arithmetic of the scoring code ([averagePathLength],
      [pathLength], [anomalyScore]) is modelled on the extended reals
      (type [double] below): NaN and the two infinities behave as IEEE-754
      says, a finite value is an exact real number.  Rounding, overflow
      and underflow of finite results and the sign of zero are not
      modelled: a theorem about [double] values holds for the formulas
      of the code evaluated exactly.  Where the machine differs in a way
      that matters ([(double) n] from 2^53 on, [log2] next to a large
      power of two, [pow] below 2^-1075), the definitions say so, and
      [averagePathLength_double] gives that function on binary64
      values.
    - The random engine ([std::mt19937_64]) and
      [std::uniform_int_distribution] belong to the C++ standard library;
      they are an interface ([URBG]) with the one law the standard gives:
      a draw lies between the two bounds. *)

From Stdlib Require Import List ZArith NArith Lia Bool Arith PeanoNat.
From Stdlib Require Import Strings.String Strings.Ascii.
From Stdlib Require Import Floats.
From Stdlib Require Import Reals Lra.
Import ListNotations.

Set Implicit Arguments.

(** ** The [double] of the scoring code *)

Inductive double : Type :=
| DNaN : double
| DInf (negative : bool) : double
| DFin (r : R) : double.

Definition Rneg_b (r : R) : bool :=
  if Rlt_dec r 0 then true else false.

Definition Rzero_b (r : R) : bool :=
  if Req_dec_T r 0 then true else false.

(** Unary minus. *)
Definition Dneg (x : double) : double :=
  match x with
  | DNaN => DNaN
  | DInf s => DInf (negb s)
  | DFin r => DFin (- r)
  end.

(** [x + y]: opposite infinities give NaN. *)
Definition Dadd (x y : double) : double :=
  match x, y with
  | DNaN, _ | _, DNaN => DNaN
  | DInf s, DInf t => if Bool.eqb s t then DInf s else DNaN
  | DInf s, DFin _ => DInf s
  | DFin _, DInf t => DInf t
  | DFin a, DFin b => DFin (a + b)
  end.

Definition Dsub (x y : double) : double := Dadd x (Dneg y).

(** [x * y]: zero times infinity gives NaN. *)
Definition Dmul (x y : double) : double :=
  match x, y with
  | DNaN, _ | _, DNaN => DNaN
  | DInf s, DInf t => DInf (xorb s t)
  | DInf s, DFin b => if Rzero_b b then DNaN else DInf (xorb s (Rneg_b b))
  | DFin a, DInf t => if Rzero_b a then DNaN else DInf (xorb (Rneg_b a) t)
  | DFin a, DFin b => DFin (a * b)
  end.

(** [x / y]: 0/0 and inf/inf give NaN, a non-zero finite value over
    zero gives an infinity, a finite value over an infinity gives zero.
    (Zero is taken as +0: the zeros the source divides by come from
    unsigned counts.) *)
Definition Ddiv (x y : double) : double :=
  match x, y with
  | DNaN, _ | _, DNaN => DNaN
  | DInf _, DInf _ => DNaN
  | DInf s, DFin b => DInf (xorb s (Rneg_b b))
  | DFin _, DInf _ => DFin 0
  | DFin a, DFin b =>
      if Rzero_b b
      then (if Rzero_b a then DNaN else DInf (Rneg_b a))
      else DFin (a / b)
  end.

(** [log] of <cmath>: log(0) is minus infinity, the logarithm of a
    negative number is NaN. *)
Definition Dlog (x : double) : double :=
  match x with
  | DNaN => DNaN
  | DInf s => if s then DNaN else DInf false
  | DFin r =>
      if Rzero_b r then DInf true
      else if Rneg_b r then DNaN
      else DFin (ln r)
  end.

(** [pow(2, y)] of <cmath>, exactly: a finite [y] gives the positive
    real 2^y.  On the machine the result underflows to 0 for [y] below
    about -1075 and overflows to infinity from 1024 on. *)
Definition Dpow2 (y : double) : double :=
  match y with
  | DNaN => DNaN
  | DInf s => if s then DFin 0 else DInf false
  | DFin r => DFin (Rpower 2 r)
  end.

(** Conversions [(double) n] of a [size_t] and of an [int], exactly.
    On the machine a [size_t] from 2^53 on is rounded to the nearest
    double ([double_of_size_t] below). *)
Definition D_of_nat (n : nat) : double := DFin (INR n).
Definition D_of_Z (z : Z) : double := DFin (IZR z).

(** A finite value in the half-open interval (0, 1]. *)
Definition Dunit_score (x : double) : Prop :=
  exists r, x = DFin r /\ (0 < r <= 1)%R.

(** A finite, strictly positive value. *)
Definition Dfinite_pos (x : double) : Prop :=
  exists r, x = DFin r /\ (0 < r)%R.

(** #define EULER_GAMMA 0.57721566490153286 *)
Definition EULER_GAMMA : R := (57721566490153286 / 100000000000000000)%R.

(** ** Numeric cells *)

Definition DataType : Type := float.

(** [isnan(x)]. *)
Definition isnan (x : DataType) : bool := PrimFloat.is_nan x.

(** [x <= y] on doubles: false as soon as one side is NaN. *)
Definition fle (x y : DataType) : bool := PrimFloat.leb x y.

(** [NAN]. *)
Definition NAN : DataType := PrimFloat.nan.

(** ** [averagePathLength] on doubles

    The same function with the operations of the machine: the
    conversion and the four operations are those of IEEE-754 binary64;
    [log] of <cmath> is left as a parameter. *)




(** ** Text cells: NUL-terminated byte strings *)

Definition CharDataType : Type := string.

Definition NUL : ascii := Ascii.zero.

(** [strlen]: the number of bytes before the first NUL (the end of the
    Rocq string stands for the terminator). *)
Fixpoint strlen (s : CharDataType) : nat :=
  match s with
  | EmptyString => 0
  | String c s' => if Ascii.eqb c NUL then 0 else S (strlen s')
  end.

Definition byte_val (c : ascii) : Z := Z.of_nat (nat_of_ascii c).

(** [strcmp]: the difference of the first two bytes that differ, read
    as [unsigned char]; 0 when both strings end together. *)
Fixpoint strcmp (a b : CharDataType) : Z :=
  match a, b with
  | EmptyString, EmptyString => 0
  | EmptyString, String d _ => (0 - byte_val d)%Z
  | String c _, EmptyString => byte_val c
  | String c a', String d b' =>
      if Ascii.eqb c d
      then (if Ascii.eqb c NUL then 0%Z else strcmp a' b')
      else (byte_val c - byte_val d)%Z
  end.

(** ** The random engine *)

(** [std::mt19937_64] seeded with a [size_t], and one draw of a
    [std::uniform_int_distribution<size_t>(a, b)]: the value and the
    engine after the draw. *)
Record URBG : Type := mkURBG {
  engine : Type;
  seed_engine : nat -> engine;
  uniform_int : N -> N -> engine -> N * engine;
  uniform_int_range :
    forall a b g, (a <= b)%N ->
      (a <= fst (uniform_int a b g) <= b)%N
}.

(** ** The data source *)

(** The two numpy arrays, read only through [PyArray_DIM] and
    [PyArray_GETPTR2]: attribute-major, one column per observation. *)
Record DataSource : Type := mkDataSource {
  num_dim0 : nat;                         (* PyArray_DIM(num_data, 0) *)
  num_dim1 : nat;                         (* PyArray_DIM(num_data, 1) *)
  char_dim0 : nat;                        (* PyArray_DIM(char_data, 0) *)
  num_at : nat -> nat -> DataType;        (* PyArray_GETPTR2(num_data, a, i) *)
  char_at : nat -> nat -> CharDataType    (* PyArray_GETPTR2(char_data, a, i) *)
}.

(** ** Trees *)

(** [IsolationTree::Node].  An external node is
    [Node(-1, NAN, nullptr, true, nObs)] with both children null; an
    internal node is [Node(attr, val, splitChar, false, nObs)] with the
    two children [growTree] always gives it.  [splitChar] is null
    ([None]) on a numeric split. *)
Inductive Node : Type :=
| ExNode (nObs : nat) : Node
| InNode (splitAttribute : nat) (splitValue : DataType)
         (splitChar : option CharDataType) (nObs : nat)
         (lnode rnode : Node) : Node.

Definition isExNode (n : Node) : bool :=
  match n with ExNode _ => true | InNode _ _ _ _ _ _ => false end.

Definition node_nObs (n : Node) : nat :=
  match n with ExNode k => k | InNode _ _ _ k _ _ => k end.

(** The greatest depth of a node below [n] ([n] itself is at depth 0). *)
Fixpoint node_depth (n : Node) : Z :=
  match n with
  | ExNode _ => 0
  | InNode _ _ _ _ l r => 1 + Z.max (node_depth l) (node_depth r)
  end.

(** [AtDepth n d m]: [m] is a node of the tree [n], [d] edges below
    its root. *)
Inductive AtDepth : Node -> Z -> Node -> Prop :=
| AtDepth_here : forall n, AtDepth n 0 n
| AtDepth_left : forall a v c k l r d m,
    AtDepth l d m -> AtDepth (InNode a v c k l r) (d + 1) m
| AtDepth_right : forall a v c k l r d m,
    AtDepth r d m -> AtDepth (InNode a v c k l r) (d + 1) m.

(** [IsolationTree]: the owned root. *)
Record IsolationTree : Type := mkTree { root : Node }.

(** ** The forest *)

Section Forest.

Variable G : URBG.

Record IsolationForest : Type := mkForest {
  data : DataSource;          (* num_data, char_data *)
  treeSize : nat;
  forestSize : nat;
  randomSeed : nat;
  maxTreeHeight : Z;
  n_num_attrs : nat;
  n_char_attrs : nat;
  nObs : nat;
  trees : list IsolationTree;
  randomGen : engine G;
  uniformDist : N * N         (* the two bounds of the distribution *)
}.

(** [n_num_attrs + n_char_attrs - 1] in [size_t]: with no attribute
    at all the subtraction wraps around. *)
Definition attr_upper (nn nc : nat) : N :=
  if (nn + nc =? 0)%nat then 18446744073709551615%N
  else (N.of_nat (nn + nc) - 1)%N.

(** [ceil(log2((double)treeSize))] as an [int], exactly: for
    [treeSize >= 1] the least [k] with [treeSize <= 2^k].  On the
    machine [log2] rounds its result: for a [treeSize] just above a
    large power of two (2^49 + 1, say) it returns the exponent itself
    and the source gets one less.  At [treeSize = 0] the source
    converts minus infinity to [int], which C++ leaves undefined; the
    value here is 0. *)
Definition ceil_log2 (n : nat) : Z := Z.log2_up (Z.of_nat n).

(** The constructor. *)
Definition IsolationForest_new (d : DataSource)
    (treeSize forestSize randomSeed : nat) : IsolationForest :=
  {| data := d;
     treeSize := treeSize;
     forestSize := forestSize;
     randomSeed := randomSeed;
     maxTreeHeight := ceil_log2 treeSize;
     n_num_attrs := num_dim0 d;
     n_char_attrs := char_dim0 d;
     nObs := num_dim1 d;
     trees := [];
     randomGen := seed_engine G randomSeed;
     uniformDist := (0%N, attr_upper (num_dim0 d) (char_dim0 d)) |}.

(** The forest after a tree was appended and the engine advanced. *)
Definition push_tree (f : IsolationForest) (t : IsolationTree)
    (g : engine G) : IsolationForest :=
  {| data := data f;
     treeSize := treeSize f;
     forestSize := forestSize f;
     randomSeed := randomSeed f;
     maxTreeHeight := maxTreeHeight f;
     n_num_attrs := n_num_attrs f;
     n_char_attrs := n_char_attrs f;
     nObs := nObs f;
     trees := trees f ++ [t];
     randomGen := g;
     uniformDist := uniformDist f |}.

(** *** std::sample

    [std::sample(first, last, back_inserter(out), n, g)] over a forward
    range: selection sampling.  It visits the population in order and
    keeps each element with probability (still needed)/(still unseen),
    one draw per element visited, until [min(n, size)] are taken. *)
Fixpoint sample_loop (pop : list nat) (unsampled n : nat) (g : engine G)
    : list nat * engine G :=
  match pop with
  | [] => ([], g)
  | x :: rest =>
      if (n =? 0)%nat then ([], g)
      else
        let (r, g1) := uniform_int G 0 (N.of_nat (unsampled - 1)) g in
        if (r <? N.of_nat n)%N
        then
          let (out, g2) := sample_loop rest (unsampled - 1) (n - 1) g1 in
          (x :: out, g2)
        else sample_loop rest (unsampled - 1) n g1
  end.

Definition std_sample (pop : list nat) (n : nat) (g : engine G)
    : list nat * engine G :=
  sample_loop pop (List.length pop) (Nat.min n (List.length pop)) g.

(** [std::iota(obs.begin(), obs.end(), 0)] on a vector of [n] cells. *)
Definition iota (n : nat) : list nat := seq 0 n.

(** *** growTree *)

(** The test of the numeric loop (lines 37-50): does observation value
    [obsVal] go to [lobs] when the split value is [val]? *)
Definition num_goes_left (val obsVal : DataType) : bool :=
  if isnan val then
    (if isnan obsVal then true else false)
  else
    (if isnan obsVal || fle obsVal val then true else false).

(** The test of the text loop (lines 66-74). *)
Definition char_goes_left (val obsVal : CharDataType) : bool :=
  let val_len := strlen val in
  let obsVal_len := strlen obsVal in
  if (obsVal_len <? val_len)%nat then true
  else if (val_len <? obsVal_len)%nat then false
  else if (strcmp obsVal val <=? 0)%Z then true
  else false.

(** The two loops: every index of [sample], in order, is pushed to
    [lobs] or to [robs]. *)
Definition split_num (d : DataSource) (attr : nat) (val : DataType)
    (sample : list nat) : list nat * list nat :=
  partition (fun i => num_goes_left val (num_at d attr i)) sample.

Definition split_char (d : DataSource) (cattr : nat) (val : CharDataType)
    (sample : list nat) : list nat * list nat :=
  partition (fun i => char_goes_left val (char_at d cattr i)) sample.

(** [growTree(sample, node, height)].  The recursion of the source ends
    because [height] grows towards [maxTreeHeight]; [fuel] bounds the
    number of nested calls, and [None] means it ran out. *)
Fixpoint growTree_fuel (f : IsolationForest) (fuel : nat)
    (sample : list nat) (height : Z) (g : engine G)
    : option (Node * engine G) :=
  let nObs := List.length sample in
  if (nObs <=? 1)%nat || (height >=? maxTreeHeight f)%Z then
    Some (ExNode nObs, g)
  else
    match fuel with
    | O => None
    | S fuel' =>
        let (attrN, g1) :=
          uniform_int G (fst (uniformDist f)) (snd (uniformDist f)) g in
        let attr := N.to_nat attrN in
        let (k, g2) := uniform_int G 0 (N.of_nat (nObs - 1)) g1 in
        let pivot := nth (N.to_nat k) sample 0%nat in
        let '(node, lobs, robs) :=
          if (attr <? n_num_attrs f)%nat then
            let val := num_at (data f) attr pivot in
            let (lobs, robs) := split_num (data f) attr val sample in
            (fun l r => InNode attr val None nObs l r, lobs, robs)
          else
            let val := char_at (data f) (attr - n_num_attrs f) pivot in
            let (lobs, robs) :=
              split_char (data f) (attr - n_num_attrs f) val sample in
            (fun l r => InNode attr NAN (Some val) nObs l r, lobs, robs)
        in
        match growTree_fuel f fuel' lobs (height + 1) g2 with
        | None => None
        | Some (l, g3) =>
            match growTree_fuel f fuel' robs (height + 1) g3 with
            | None => None
            | Some (r, g4) => Some (node l r, g4)
            end
        end
    end.

(** The call [growTree(sample, tree->root)] (height 0). *)
Definition growTree (f : IsolationForest) (sample : list nat)
    (g : engine G) : option (Node * engine G) :=
  growTree_fuel f (Z.to_nat (maxTreeHeight f)) sample 0 g.

(** *** averagePathLength *)

Definition averagePathLength (nObs : nat) : double :=
  let n := D_of_nat nObs in
  Dsub (Dmul (DFin 2) (Dadd (Dlog (Dsub n (DFin 1))) (DFin EULER_GAMMA)))
       (Ddiv (Dmul (DFin 2) (Dsub n (DFin 1))) n).

(** *** pathLength *)

(** A null [splitChar] read as a string (only on a node [growTree]
    never builds on a text attribute). *)
Definition c_str (p : option CharDataType) : CharDataType :=
  match p with Some s => s | None => EmptyString end.

Fixpoint pathLength (f : IsolationForest) (ob : nat) (node : Node)
    (length : Z) : double :=
  match node with
  | ExNode nObs =>
      if (nObs <=? 1)%nat then D_of_Z length
      else Dadd (D_of_Z length) (averagePathLength nObs)
  | InNode splitAttribute splitValue splitChar _ lnode rnode =>
      if (splitAttribute <? n_num_attrs f)%nat then
        let val := num_at (data f) splitAttribute ob in
        if fle val splitValue
        then pathLength f ob lnode (length + 1)
        else pathLength f ob rnode (length + 1)
      else
        let val :=
          char_at (data f) (splitAttribute - n_num_attrs f) ob in
        let val_len := strlen val in
        let splitVal_len := strlen (c_str splitChar) in
        if (val_len <? splitVal_len)%nat then
          pathLength f ob lnode (length + 1)
        else if (splitVal_len <? val_len)%nat then
          pathLength f ob rnode (length + 1)
        else if (strcmp val (c_str splitChar) <=? 0)%Z then
          pathLength f ob lnode (length + 1)
        else
          pathLength f ob rnode (length + 1)
  end.

(** *** growForest *)

Fixpoint growForest_loop (f : IsolationForest) (obs : list nat)
    (iterations : nat) : option IsolationForest :=
  match iterations with
  | O => Some f
  | S iterations' =>
      let (sample, g1) := std_sample obs (treeSize f) (randomGen f) in
      match growTree f sample g1 with
      | None => None
      | Some (rt, g2) =>
          growForest_loop (push_tree f (mkTree rt) g2) obs iterations'
      end
  end.

Definition growForest (f : IsolationForest) : option IsolationForest :=
  growForest_loop f (iota (nObs f)) (forestSize f).

(** *** grow

    The body of the thread [grow(jobs)] starts, run on its own (no
    other job touching the forest meanwhile).  [sample] is declared
    before the loop and [std::sample] appends to it. *)
Fixpoint grow_loop (f : IsolationForest) (obs sample : list nat)
    (iterations : nat) : option IsolationForest :=
  match iterations with
  | O => Some f
  | S iterations' =>
      let (out, g1) := std_sample obs (treeSize f) (randomGen f) in
      let sample' := sample ++ out in
      match growTree f sample' g1 with
      | None => None
      | Some (rt, g2) =>
          grow_loop (push_tree f (mkTree rt) g2) obs sample' iterations'
      end
  end.

Definition grow (f : IsolationForest) (jobs : nat)
    : option IsolationForest :=
  grow_loop f (iota (nObs f)) [] jobs.

(** *** anomalyScore *)

(** [avg] after the loop of line 128. *)
Definition sum_pathLength (f : IsolationForest) (ob : nat) : double :=
  fold_left (fun avg tree => Dadd avg (pathLength f ob (root tree) 0))
            (trees f) (DFin 0).

(** [avg] after line 129. *)
Definition average_pathLength (f : IsolationForest) (ob : nat) : double :=
  Ddiv (sum_pathLength f ob) (D_of_nat (forestSize f)).

Definition anomalyScore (f : IsolationForest) (ob : nat) : double :=
  let avg := average_pathLength f ob in
  Dpow2 (Ddiv (Dneg avg) (averagePathLength (treeSize f))).

End Forest.

(** * The runs of [growTree] as a relation

    [Grown f sample height g node g']: called on [sample] at [height]
    with the engine in state [g], [growTree] builds [node] and leaves
    the engine in state [g'].  One rule per path through the source:
    the early return, the numeric branch, the text branch. *)
Inductive Grown (G : URBG) (f : IsolationForest G)
  : list nat -> Z -> engine G -> Node -> engine G -> Prop :=
| Grown_leaf : forall sample height g,
    (List.length sample <= 1)%nat \/ (maxTreeHeight f <= height)%Z ->
    Grown f sample height g (ExNode (List.length sample)) g
| Grown_num : forall sample height g attrN g1 k g2 val lobs robs l g3 r g4,
    (1 < List.length sample)%nat -> (height < maxTreeHeight f)%Z ->
    uniform_int G (fst (uniformDist f)) (snd (uniformDist f)) g
      = (attrN, g1) ->
    uniform_int G 0 (N.of_nat (List.length sample - 1)) g1 = (k, g2) ->
    (N.to_nat attrN < n_num_attrs f)%nat ->
    val = num_at (data f) (N.to_nat attrN) (nth (N.to_nat k) sample 0%nat) ->
    split_num (data f) (N.to_nat attrN) val sample = (lobs, robs) ->
    Grown f lobs (height + 1) g2 l g3 ->
    Grown f robs (height + 1) g3 r g4 ->
    Grown f sample height g
          (InNode (N.to_nat attrN) val None (List.length sample) l r) g4
| Grown_char : forall sample height g attrN g1 k g2 val lobs robs l g3 r g4,
    (1 < List.length sample)%nat -> (height < maxTreeHeight f)%Z ->
    uniform_int G (fst (uniformDist f)) (snd (uniformDist f)) g
      = (attrN, g1) ->
    uniform_int G 0 (N.of_nat (List.length sample - 1)) g1 = (k, g2) ->
    (n_num_attrs f <= N.to_nat attrN)%nat ->
    val = char_at (data f) (N.to_nat attrN - n_num_attrs f)
                  (nth (N.to_nat k) sample 0%nat) ->
    split_char (data f) (N.to_nat attrN - n_num_attrs f) val sample
      = (lobs, robs) ->
    Grown f lobs (height + 1) g2 l g3 ->
    Grown f robs (height + 1) g3 r g4 ->
    Grown f sample height g
          (InNode (N.to_nat attrN) NAN (Some val) (List.length sample) l r)
          g4.

(** * What the specification words differently

    Definitions that follow the wording of the specification, to be
    compared with the code above. *)




(** The order [x < y] of two doubles; it never holds of a NaN. *)
Definition Dlt (x y : double) : Prop :=
  match x, y with
  | DNaN, _ | _, DNaN => False
  | DInf true, DInf true => False
  | DInf true, _ => True
  | _, DInf true => False
  | DInf false, _ => False
  | DFin _, DInf false => True
  | DFin a, DFin b => (a < b)%R
  end.

(** The formula of [averagePathLength] over the reals. *)
Definition averagePathLength_R (x : R) : R :=
  (2 * (ln (x - 1) + EULER_GAMMA) - 2 * (x - 1) / x)%R.

(** The score the specification describes: the mean is taken over the
    trees the forest owns. *)
Definition anomalyScore_mean (G : URBG) (f : IsolationForest G)
    (ob : nat) : double :=
  let avg := Ddiv (sum_pathLength f ob)
                  (D_of_nat (List.length (trees f))) in
  Dpow2 (Ddiv (Dneg avg) (averagePathLength (treeSize f))).

(** Two data sources with the same shape and the same cells. *)
Definition data_agree (d1 d2 : DataSource) : Prop :=
  num_dim0 d1 = num_dim0 d2
  /\ num_dim1 d1 = num_dim1 d2
  /\ char_dim0 d1 = char_dim0 d2
  /\ (forall a i, num_at d1 a i = num_at d2 a i)
  /\ (forall a i, char_at d1 a i = char_at d2 a i).

(** Two forest objects configured alike over agreeing data. *)
Definition same_config (G : URBG) (f1 f2 : IsolationForest G) : Prop :=
  data_agree (data f1) (data f2)
  /\ treeSize f1 = treeSize f2
  /\ forestSize f1 = forestSize f2
  /\ maxTreeHeight f1 = maxTreeHeight f2
  /\ n_num_attrs f1 = n_num_attrs f2
  /\ nObs f1 = nObs f2
  /\ uniformDist f1 = uniformDist f2.

(** A text node carries its pivot text and a numeric node carries
    none: what [pathLength] relies on when it reads [splitChar]. *)
Fixpoint split_kind_ok (n_num : nat) (node : Node) : Prop :=
  match node with
  | ExNode _ => True
  | InNode a _ c _ l r =>
      (if (a <? n_num)%nat then c = None else c <> None)
      /\ split_kind_ok n_num l /\ split_kind_ok n_num r
  end.

(** * Observations on trees

    Functions that read a tree the way [pathLength] walks it, and
    predicates on the shape of a tree. *)

(** The turns [pathLength] takes from [node] for observation [ob]:
    [true] for [lnode], [false] for [rnode], in the order walked.  The
    tests are those of lines 140-161. *)
Fixpoint route (G : URBG) (f : IsolationForest G) (ob : nat) (node : Node)
    : list bool :=
  match node with
  | ExNode _ => []
  | InNode splitAttribute splitValue splitChar _ lnode rnode =>
      if (splitAttribute <? n_num_attrs f)%nat then
        let val := num_at (data f) splitAttribute ob in
        if fle val splitValue
        then true :: route f ob lnode
        else false :: route f ob rnode
      else
        let val :=
          char_at (data f) (splitAttribute - n_num_attrs f) ob in
        let val_len := strlen val in
        let splitVal_len := strlen (c_str splitChar) in
        if (val_len <? splitVal_len)%nat then
          true :: route f ob lnode
        else if (splitVal_len <? val_len)%nat then
          false :: route f ob rnode
        else if (strcmp val (c_str splitChar) <=? 0)%Z then
          true :: route f ob lnode
        else
          false :: route f ob rnode
  end.

(** The node a sequence of turns leads to, when it ends on a leaf. *)
Fixpoint leaf_at (node : Node) (turns : list bool) : option Node :=
  match node, turns with
  | ExNode _, [] => Some node
  | InNode _ _ _ _ lnode rnode, b :: turns' =>
      leaf_at (if b then lnode else rnode) turns'
  | _, _ => None
  end.

Definition turns_eq_dec : forall p q : list bool, {p = q} + {p <> q} :=
  list_eq_dec Bool.bool_dec.

(** The sizes recorded at the two children add up to the size recorded
    at their parent, all the way down. *)
Fixpoint sizes_add_up (node : Node) : Prop :=
  match node with
  | ExNode _ => True
  | InNode _ _ _ k l r =>
      (node_nObs l + node_nObs r)%nat = k
      /\ sizes_add_up l /\ sizes_add_up r
  end.

(** The sum of the sizes recorded at the leaves. *)
Fixpoint leaf_total (node : Node) : nat :=
  match node with
  | ExNode k => k
  | InNode _ _ _ _ l r => (leaf_total l + leaf_total r)%nat
  end.

(** Every internal node has at least one observation on its left. *)
Fixpoint left_nonempty (node : Node) : Prop :=
  match node with
  | ExNode _ => True
  | InNode _ _ _ _ l r =>
      (1 <= node_nObs l)%nat /\ left_nonempty l /\ left_nonempty r
  end.

(** Every split attribute is below [bound]. *)
Fixpoint attrs_below (bound : nat) (node : Node) : Prop :=
  match node with
  | ExNode _ => True
  | InNode a _ _ _ l r =>
      (a < bound)%nat /\ attrs_below bound l /\ attrs_below bound r
  end.

(** Every leaf records at most [m] observations. *)
Fixpoint leaves_le (m : nat) (node : Node) : Prop :=
  match node with
  | ExNode k => (k <= m)%nat
  | InNode _ _ _ _ l r => leaves_le m l /\ leaves_le m r
  end.

(** No observation of [sample] has a missing value on a numeric
    attribute. *)
Definition no_missing (G : URBG) (f : IsolationForest G)
    (sample : list nat) : Prop :=
  forall i a, In i sample -> (a < n_num_attrs f)%nat ->
    isnan (num_at (data f) a i) = false.

(** [t] was grown by a call [growTree(sample, tree->root)] of forest
    [f] on a sample of [size] indices taken from [obs]. *)
Definition grown_from (G : URBG) (f : IsolationForest G) (obs : list nat)
    (size : nat -> Prop) (t : IsolationTree) : Prop :=
  exists sample g g',
    Grown f sample 0 g (root t) g'
    /\ size (List.length sample)
    /\ forall i, In i sample -> In i obs.

(** What the loops keep: everything but the trees and the engine. *)
Definition same_setup (G : URBG) (f f' : IsolationForest G) : Prop :=
  data f' = data f /\ treeSize f' = treeSize f
  /\ forestSize f' = forestSize f /\ randomSeed f' = randomSeed f
  /\ maxTreeHeight f' = maxTreeHeight f
  /\ n_num_attrs f' = n_num_attrs f /\ n_char_attrs f' = n_char_attrs f
  /\ nObs f' = nObs f /\ uniformDist f' = uniformDist f.

(** * Concrete inputs *)

(** A concrete engine for the examples: a 64-bit linear congruential
    generator; a draw reduces the upper half of the state into [a, b]. *)
Module LCG.

Definition modulus : N := 18446744073709551616%N.

Definition next (s : N) : N :=
  ((6364136223846793005 * s + 1442695040888963407) mod modulus)%N.

Definition draw (a b : N) (s : N) : N * N :=
  let s' := next s in
  ((a + (s' / 4294967296) mod (b - a + 1))%N, s').

Lemma draw_range a b s :
  (a <= b)%N -> (a <= fst (draw a b s) <= b)%N.
Proof.
  intros Hab. unfold draw. cbv zeta. cbn [fst].
  pose proof (N.mod_upper_bound (next s / 4294967296) (b - a + 1)) as H.
  generalize dependent ((next s / 4294967296) mod (b - a + 1))%N.
  intros m H. lia.
Qed.

Definition urbg : URBG :=
  {| engine := N;
     seed_engine := N.of_nat;
     uniform_int := draw;
     uniform_int_range := draw_range |}.

End LCG.

(** One numeric attribute, two observations: 1.0 and 2.0. *)
Definition two_obs : DataSource :=
  {| num_dim0 := 1; num_dim1 := 2; char_dim0 := 0;
     num_at := fun _ i => if (i =? 0)%nat then 1%float else 2%float;
     char_at := fun _ _ => EmptyString |}.

(** One numeric attribute, two observations: NaN and 1.0. *)
Definition nan_obs : DataSource :=
  {| num_dim0 := 1; num_dim1 := 2; char_dim0 := 0;
     num_at := fun _ i => if (i =? 0)%nat then NAN else 1%float;
     char_at := fun _ _ => EmptyString |}.

(** One numeric attribute, one observation. *)
Definition one_obs : DataSource :=
  {| num_dim0 := 1; num_dim1 := 1; char_dim0 := 0;
     num_at := fun _ _ => 1%float;
     char_at := fun _ _ => EmptyString |}.

(** A forest over the example engine. *)
Definition forest_of (d : DataSource) (treeSize forestSize seed : nat)
    : IsolationForest LCG.urbg :=
  IsolationForest_new LCG.urbg d treeSize forestSize seed.

(** The two-observation data source, its accessor written otherwise. *)
Definition two_obs_copy : DataSource :=
  {| num_dim0 := 1; num_dim1 := 2; char_dim0 := 0;
     num_at := fun _ i =>
       match i with O => 1%float | S _ => 2%float end;
     char_at := fun _ _ => EmptyString |}.

(** The tree both builds below produce: the pivot is observation 0. *)
Definition split_at_first : Node :=
  InNode 0 1%float None 2 (ExNode 1) (ExNode 1).

(** The tree [growForest] builds over [nan_obs] with seed 0: the pivot
    is 1.0 and both observations were pushed left. *)
Definition nan_tree : Node :=
  InNode 0 1%float None 2 (ExNode 2) (ExNode 0).

(** * Properties *)

(** ** Tree growth: termination and depth *)

Section GrowTree.

Variable G : URBG.
Variable f : IsolationForest G.

(** The stopping rule of line 16. *)
Lemma growTree_fuel_leaf fuel sample height g :
  (List.length sample <= 1)%nat \/ (maxTreeHeight f <= height)%Z ->
  growTree_fuel f fuel sample height g
  = Some (ExNode (List.length sample), g).
Proof.
  intros H.
  assert (E : ((List.length sample <=? 1)%nat
               || (height >=? maxTreeHeight f)%Z) = true).
  { apply orb_true_iff. destruct H as [H | H].
    - left. now apply Nat.leb_le.
    - right. apply Z.geb_le. lia. }
  destruct fuel; simpl; rewrite E; reflexivity.
Qed.

(** One unfolding of the recursive case, in the shape of the source. *)
Lemma growTree_fuel_step fuel sample height g :
  (1 < List.length sample)%nat -> (height < maxTreeHeight f)%Z ->
  growTree_fuel f (S fuel) sample height g
  = let nObs := List.length sample in
    let (attrN, g1) :=
      uniform_int G (fst (uniformDist f)) (snd (uniformDist f)) g in
    let attr := N.to_nat attrN in
    let (k, g2) := uniform_int G 0 (N.of_nat (nObs - 1)) g1 in
    let pivot := nth (N.to_nat k) sample 0%nat in
    let '(node, lobs, robs) :=
      if (attr <? n_num_attrs f)%nat then
        let val := num_at (data f) attr pivot in
        let (lobs, robs) := split_num (data f) attr val sample in
        (fun l r => InNode attr val None nObs l r, lobs, robs)
      else
        let val := char_at (data f) (attr - n_num_attrs f) pivot in
        let (lobs, robs) :=
          split_char (data f) (attr - n_num_attrs f) val sample in
        (fun l r => InNode attr NAN (Some val) nObs l r, lobs, robs)
    in
    match growTree_fuel f fuel lobs (height + 1) g2 with
    | None => None
    | Some (l, g3) =>
        match growTree_fuel f fuel robs (height + 1) g3 with
        | None => None
        | Some (r, g4) => Some (node l r, g4)
        end
    end.
Proof.
  intros Hn Hh.
  assert (E : ((List.length sample <=? 1)%nat
               || (height >=? maxTreeHeight f)%Z) = false).
  { apply orb_false_iff. split.
    - apply Nat.leb_gt. lia.
    - destruct (Z.geb_spec height (maxTreeHeight f)); [lia | reflexivity]. }
  cbn [growTree_fuel]. rewrite E. reflexivity.
Qed.

(** The children of a numeric split are grown from the two lists
    [split_num] returns, the pivot being the value of a drawn sample
    element. *)
Lemma growTree_fuel_num_step fuel sample height g attrN g1 k g2 lobs robs :
  (1 < List.length sample)%nat -> (height < maxTreeHeight f)%Z ->
  uniform_int G (fst (uniformDist f)) (snd (uniformDist f)) g = (attrN, g1) ->
  uniform_int G 0 (N.of_nat (List.length sample - 1)) g1 = (k, g2) ->
  (N.to_nat attrN < n_num_attrs f)%nat ->
  split_num (data f) (N.to_nat attrN)
            (num_at (data f) (N.to_nat attrN)
                    (nth (N.to_nat k) sample 0%nat)) sample
    = (lobs, robs) ->
  growTree_fuel f (S fuel) sample height g
  = match growTree_fuel f fuel lobs (height + 1) g2 with
    | None => None
    | Some (l, g3) =>
        match growTree_fuel f fuel robs (height + 1) g3 with
        | None => None
        | Some (r, g4) =>
            Some (InNode (N.to_nat attrN)
                         (num_at (data f) (N.to_nat attrN)
                                 (nth (N.to_nat k) sample 0%nat))
                         None (List.length sample) l r, g4)
        end
    end.
Proof.
  intros Hn Hh Ha Hk Hattr Hs.
  rewrite growTree_fuel_step by assumption. cbv zeta.
  rewrite Ha, Hk.
  replace (N.to_nat attrN <? n_num_attrs f)%nat with true
    by (symmetry; apply Nat.ltb_lt; exact Hattr).
  rewrite Hs. reflexivity.
Qed.

(** The same for a text split. *)
Lemma growTree_fuel_text_step fuel sample height g attrN g1 k g2 lobs robs :
  (1 < List.length sample)%nat -> (height < maxTreeHeight f)%Z ->
  uniform_int G (fst (uniformDist f)) (snd (uniformDist f)) g = (attrN, g1) ->
  uniform_int G 0 (N.of_nat (List.length sample - 1)) g1 = (k, g2) ->
  (n_num_attrs f <= N.to_nat attrN)%nat ->
  split_char (data f) (N.to_nat attrN - n_num_attrs f)
             (char_at (data f) (N.to_nat attrN - n_num_attrs f)
                      (nth (N.to_nat k) sample 0%nat)) sample
    = (lobs, robs) ->
  growTree_fuel f (S fuel) sample height g
  = match growTree_fuel f fuel lobs (height + 1) g2 with
    | None => None
    | Some (l, g3) =>
        match growTree_fuel f fuel robs (height + 1) g3 with
        | None => None
        | Some (r, g4) =>
            Some (InNode (N.to_nat attrN) NAN
                         (Some (char_at (data f)
                                  (N.to_nat attrN - n_num_attrs f)
                                  (nth (N.to_nat k) sample 0%nat)))
                         (List.length sample) l r, g4)
        end
    end.
Proof.
  intros Hn Hh Ha Hk Hattr Hs.
  rewrite growTree_fuel_step by assumption. cbv zeta.
  rewrite Ha, Hk.
  replace (N.to_nat attrN <? n_num_attrs f)%nat with false
    by (symmetry; apply Nat.ltb_ge; exact Hattr).
  rewrite Hs. reflexivity.
Qed.

(** Which of the three paths a call takes. *)
Inductive grow_case (fuel : nat) (sample : list nat) (height : Z)
    (g : engine G) : Prop :=
| case_leaf :
    growTree_fuel f fuel sample height g
    = Some (ExNode (List.length sample), g) ->
    (List.length sample <= 1)%nat \/ (maxTreeHeight f <= height)%Z ->
    grow_case fuel sample height g
| case_out_of_fuel :
    fuel = O ->
    growTree_fuel f fuel sample height g = None ->
    (1 < List.length sample)%nat -> (height < maxTreeHeight f)%Z ->
    grow_case fuel sample height g
| case_split : forall fuel' g2 (mk : Node -> Node -> Node) lobs robs,
    fuel = S fuel' ->
    (1 < List.length sample)%nat -> (height < maxTreeHeight f)%Z ->
    growTree_fuel f fuel sample height g
    = match growTree_fuel f fuel' lobs (height + 1) g2 with
      | None => None
      | Some (l, g3) =>
          match growTree_fuel f fuel' robs (height + 1) g3 with
          | None => None
          | Some (r, g4) => Some (mk l r, g4)
          end
      end ->
    (forall l g3 r g4,
        Grown f lobs (height + 1) g2 l g3 ->
        Grown f robs (height + 1) g3 r g4 ->
        Grown f sample height g (mk l r) g4) ->
    grow_case fuel sample height g.

Lemma growTree_fuel_cases fuel sample height g :
  grow_case fuel sample height g.
Proof.
  destruct (le_lt_dec (List.length sample) 1) as [Hn | Hn].
  { apply case_leaf; [apply growTree_fuel_leaf |]; lia. }
  destruct (Z_le_gt_dec (maxTreeHeight f) height) as [Hh | Hh].
  { apply case_leaf; [apply growTree_fuel_leaf |]; lia. }
  destruct fuel as [| fuel].
  { apply case_out_of_fuel; try lia.
    cbn [growTree_fuel].
    replace ((List.length sample <=? 1)%nat) with false
      by (symmetry; apply Nat.leb_gt; lia).
    destruct (Z.geb_spec height (maxTreeHeight f)); [lia | reflexivity]. }
  destruct (uniform_int G (fst (uniformDist f)) (snd (uniformDist f)) g)
    as [attrN g1] eqn:Ea.
  destruct (uniform_int G 0 (N.of_nat (List.length sample - 1)) g1)
    as [k g2] eqn:Ek.
  destruct (le_lt_dec (n_num_attrs f) (N.to_nat attrN)) as [Hattr | Hattr].
  - destruct (split_char (data f) (N.to_nat attrN - n_num_attrs f)
                (char_at (data f) (N.to_nat attrN - n_num_attrs f)
                         (nth (N.to_nat k) sample 0%nat)) sample)
      as [lobs robs] eqn:Es.
    eapply case_split; [reflexivity | lia | lia | |].
    + eapply growTree_fuel_text_step; eauto; lia.
    + intros. eapply Grown_char; eauto; lia.
  - destruct (split_num (data f) (N.to_nat attrN)
                (num_at (data f) (N.to_nat attrN)
                        (nth (N.to_nat k) sample 0%nat)) sample)
      as [lobs robs] eqn:Es.
    eapply case_split; [reflexivity | lia | lia | |].
    + eapply growTree_fuel_num_step; eauto; lia.
    + intros. eapply Grown_num; eauto; lia.
Qed.

(** The recursion ends: the distance of [height] to [maxTreeHeight]
    is fuel enough. *)
Lemma growTree_fuel_total fuel :
  forall sample height g,
    (Z.to_nat (maxTreeHeight f - height) <= fuel)%nat ->
    exists t g', growTree_fuel f fuel sample height g = Some (t, g').
Proof.
  induction fuel as [| fuel IH]; intros sample height g Hfuel.
  - rewrite growTree_fuel_leaf by lia. eauto.
  - destruct (growTree_fuel_cases (S fuel) sample height g)
      as [E _ | Ef _ _ _ | fuel' g2 mk lobs robs Ef _ Hh E _].
    + rewrite E. eauto.
    + discriminate Ef.
    + injection Ef as <-. rewrite E.
      destruct (IH lobs (height + 1)%Z g2) as (l & g3 & El); [lia |].
      destruct (IH robs (height + 1)%Z g3) as (r & g4 & Er); [lia |].
      rewrite El, Er. eauto.
Qed.

(** [growTree(sample, tree->root)] always returns a tree. *)
Lemma growTree_total sample g :
  exists t g', growTree f sample g = Some (t, g').
Proof.
  unfold growTree. apply growTree_fuel_total. lia.
Qed.

(** Every run of the function is a run of the relation. *)
Lemma growTree_fuel_Grown fuel :
  forall sample height g t g',
    growTree_fuel f fuel sample height g = Some (t, g') ->
    Grown f sample height g t g'.
Proof.
  induction fuel as [| fuel IH]; intros sample height g t g' H.
  - destruct (growTree_fuel_cases 0 sample height g)
      as [E Hstop | _ E _ _ | fuel' g2 mk lobs robs Ef _ _ _ _].
    + rewrite E in H. injection H as <- <-. now apply Grown_leaf.
    + congruence.
    + discriminate Ef.
  - destruct (growTree_fuel_cases (S fuel) sample height g)
      as [E Hstop | Ef _ _ _ | fuel' g2 mk lobs robs Ef _ _ E HG].
    + rewrite E in H. injection H as <- <-. now apply Grown_leaf.
    + discriminate Ef.
    + injection Ef as <-. rewrite E in H.
      destruct (growTree_fuel f fuel lobs (height + 1) g2)
        as [[l g3] |] eqn:El; [| discriminate].
      destruct (growTree_fuel f fuel robs (height + 1) g3)
        as [[r g4] |] eqn:Er; [| discriminate].
      injection H as <- <-. eapply HG; eapply IH; eassumption.
Qed.

(** Two equations for the same draw or the same split give the same
    results. *)
Ltac same_results :=
  repeat match goal with
  | H1 : ?x = (_, _), H2 : ?x = (_, _) |- _ =>
      rewrite H1 in H2; injection H2; clear H2; intros; subst
  end.

(** The relation is a function: a call has one outcome. *)
Lemma Grown_deterministic sample height g t1 g1' :
  Grown f sample height g t1 g1' ->
  forall t2 g2', Grown f sample height g t2 g2' -> t1 = t2 /\ g1' = g2'.
Proof.
  induction 1 as [sample height g Hstop
                 | sample height g attrN g1 k g2 val lobs robs l g3 r g4
                     Hn Hh Ha Hk Hattr Hval Hs HL IHL HR IHR
                 | sample height g attrN g1 k g2 val lobs robs l g3 r g4
                     Hn Hh Ha Hk Hattr Hval Hs HL IHL HR IHR];
    intros t2 g2' H2; inversion H2; subst;
    try lia; try (split; reflexivity);
    same_results; try lia; clear HL HR H2.
  all: repeat match goal with
       | IH : (forall t2 g2', Grown f ?lo ?h ?gg t2 g2' -> _),
         HA : Grown f ?lo ?h ?gg _ _ |- _ =>
           destruct (IH _ _ HA) as [-> ->]; clear HA IH
       end.
  all: split; reflexivity.
Qed.

(** Every run of the relation is a run of the function, given fuel. *)
Lemma Grown_growTree_fuel sample height g t g' :
  Grown f sample height g t g' ->
  forall fuel,
    (Z.to_nat (maxTreeHeight f - height) <= fuel)%nat ->
    growTree_fuel f fuel sample height g = Some (t, g').
Proof.
  intros HG fuel Hfuel.
  destruct (@growTree_fuel_total fuel sample height g Hfuel)
    as (t2 & g2' & E).
  rewrite E. apply growTree_fuel_Grown in E.
  destruct (Grown_deterministic HG E) as [<- <-]. reflexivity.
Qed.

(** More fuel than needed changes nothing. *)
Lemma growTree_fuel_mono fuel sample height g res :
  growTree_fuel f fuel sample height g = Some res ->
  growTree_fuel f (S fuel) sample height g = Some res.
Proof.
  destruct res as [t g']. revert sample height g t g'.
  induction fuel as [| fuel IH]; intros sample height g t g' H.
  - destruct (growTree_fuel_cases 0 sample height g)
      as [E Hstop | _ E _ _ | fuel' g2 mk lobs robs Ef _ _ _ _].
    + rewrite growTree_fuel_leaf by exact Hstop. congruence.
    + congruence.
    + discriminate Ef.
  - destruct (growTree_fuel_cases (S fuel) sample height g)
      as [E Hstop | Ef _ _ _ | fuel' g2 mk lobs robs Ef Hn Hh E _].
    + rewrite growTree_fuel_leaf by exact Hstop. congruence.
    + discriminate Ef.
    + injection Ef as <-.
      rewrite growTree_fuel_step in H by assumption.
      rewrite growTree_fuel_step by assumption.
      cbv zeta in *.
      destruct (uniform_int G _ _ g) as [a0 h1].
      destruct (uniform_int G 0 _ h1) as [k0 h2].
      destruct (if (N.to_nat a0 <? n_num_attrs f)%nat then _ else _)
        as [[mk0 lobs0] robs0].
      destruct (growTree_fuel f fuel lobs0 (height + 1) h2)
        as [[l h3] |] eqn:El; [| discriminate].
      rewrite (IH _ _ _ _ _ El).
      destruct (growTree_fuel f fuel robs0 (height + 1) h3)
        as [[r h4] |] eqn:Er; [| discriminate].
      rewrite (IH _ _ _ _ _ Er). exact H.
Qed.

(** A tree grown from [height] has no node more than
    [maxTreeHeight - height] edges below its root. *)
Lemma Grown_depth sample height g t g' :
  Grown f sample height g t g' ->
  (node_depth t <= Z.max 0 (maxTreeHeight f - height))%Z.
Proof.
  induction 1; cbn [node_depth]; lia.
Qed.

(** The root records the size of the sample the call got. *)
Lemma Grown_root_nObs sample height g t g' :
  Grown f sample height g t g' -> node_nObs t = List.length sample.
Proof.
  destruct 1; reflexivity.
Qed.

(** [pathLength] never reads a null [splitChar] in a grown tree. *)
Lemma Grown_split_kind_ok sample height g t g' :
  Grown f sample height g t g' -> split_kind_ok (n_num_attrs f) t.
Proof.
  induction 1; cbn [split_kind_ok]; [exact I | |].
  - replace (N.to_nat attrN <? n_num_attrs f)%nat with true
      by (symmetry; now apply Nat.ltb_lt).
    auto.
  - replace (N.to_nat attrN <? n_num_attrs f)%nat with false
      by (symmetry; now apply Nat.ltb_ge).
    repeat split; auto. discriminate.
Qed.

Lemma growTree_fuel_depth fuel sample height g t g' :
  growTree_fuel f fuel sample height g = Some (t, g') ->
  (node_depth t <= Z.max 0 (maxTreeHeight f - height))%Z.
Proof. intros H. eapply Grown_depth, growTree_fuel_Grown, H. Qed.

Lemma growTree_fuel_root_nObs fuel sample height g t g' :
  growTree_fuel f fuel sample height g = Some (t, g') ->
  node_nObs t = List.length sample.
Proof. intros H. eapply Grown_root_nObs, growTree_fuel_Grown, H. Qed.

Lemma growTree_fuel_split_kind_ok fuel sample height g t g' :
  growTree_fuel f fuel sample height g = Some (t, g') ->
  split_kind_ok (n_num_attrs f) t.
Proof. intros H. eapply Grown_split_kind_ok, growTree_fuel_Grown, H. Qed.

End GrowTree.

(** Every node of a tree lies within [node_depth] of the root. *)
Lemma AtDepth_le_node_depth t d m :
  AtDepth t d m -> (0 <= d <= node_depth t)%Z.
Proof.
  assert (Hpos : forall n, (0 <= node_depth n)%Z)
    by (induction n; cbn [node_depth]; lia).
  induction 1; cbn [node_depth].
  - specialize (Hpos n). lia.
  - lia.
  - lia.
Qed.

(** [ceil_log2 n] is the least [k] with [n <= 2^k], which is what
    [ceil(log2(n))] denotes for [n >= 1]. *)
Lemma ceil_log2_spec n :
  (1 <= n)%nat ->
  (0 <= ceil_log2 n)%Z
  /\ (Z.of_nat n <= 2 ^ ceil_log2 n)%Z
  /\ forall k, (0 <= k)%Z -> (Z.of_nat n <= 2 ^ k)%Z -> (ceil_log2 n <= k)%Z.
Proof.
  intros Hn. unfold ceil_log2. split; [apply Z.log2_up_nonneg |]. split.
  - destruct (Z.eq_dec (Z.of_nat n) 1) as [E | E].
    + rewrite E. reflexivity.
    + apply Z.log2_up_spec. lia.
  - intros k Hk Hle. apply Z.log2_up_le_pow2; lia.
Qed.

Lemma IZR_pow2 j : (0 <= j)%Z -> IZR (2 ^ j) = exp (IZR j * ln 2).
Proof.
  intros Hj. rewrite <- (Z2Nat.id j) at 1 by exact Hj.
  rewrite <- pow_IZR, <- Rpower_pow by lra.
  unfold Rpower. now rewrite INR_IZR_INZ, Z2Nat.id.
Qed.

(** Over the reals: [ceil_log2 n] is the ceiling of [log2 n]. *)
Lemma ceil_log2_real n :
  (1 <= n)%nat ->
  (IZR (ceil_log2 n) - 1 < ln (INR n) / ln 2 <= IZR (ceil_log2 n))%R.
Proof.
  intros Hn. unfold ceil_log2. rewrite INR_IZR_INZ.
  pose proof ln_lt_2 as Hln2.
  destruct (Z.eq_dec (Z.of_nat n) 1) as [E | E].
  - rewrite E. change (Z.log2_up 1) with 0%Z. rewrite ln_1.
    unfold Rdiv. rewrite Rmult_0_l. lra.
  - assert (Hz : (1 < Z.of_nat n)%Z) by lia.
    destruct (Z.log2_up_spec _ Hz) as [Hlo Hhi].
    pose proof (Z.log2_up_pos _ Hz) as Hk.
    set (k := Z.log2_up (Z.of_nat n)) in *.
    apply IZR_lt in Hlo. apply IZR_le in Hhi.
    rewrite IZR_pow2 in Hlo, Hhi by lia.
    replace (Z.pred k) with (k - 1)%Z in Hlo by lia.
    rewrite minus_IZR in Hlo.
    assert (Hpos : (0 < IZR (Z.of_nat n))%R) by (apply IZR_lt; lia).
    assert (H1 : ((IZR k - 1) * ln 2 < ln (IZR (Z.of_nat n)))%R).
    { rewrite <- (ln_exp ((IZR k - 1) * ln 2)).
      apply ln_increasing; [apply exp_pos | exact Hlo]. }
    assert (H2 : (ln (IZR (Z.of_nat n)) <= IZR k * ln 2)%R).
    { rewrite <- (ln_exp (IZR k * ln 2)).
      destruct Hhi as [Hlt | Heq].
      - left. apply ln_increasing; assumption.
      - right. now rewrite Heq. }
    set (L := ln (IZR (Z.of_nat n))) in *.
    assert (EL : (L = L / ln 2 * ln 2)%R) by (field; lra).
    split.
    + apply Rmult_lt_reg_r with (ln 2); lra.
    + apply Rmult_le_reg_r with (ln 2); lra.
Qed.

(** ** Text splits *)







(** Membership in the two halves of a [partition]. *)
Lemma partition_In (A : Type) (p : A -> bool) (l : list A) (x : A) :
  (In x (fst (partition p l)) <-> In x l /\ p x = true)
  /\ (In x (snd (partition p l)) <-> In x l /\ p x = false).
Proof.
  destruct (partition p l) as [l1 l2] eqn:E. cbn [fst snd].
  pose proof (elements_in_partition p l E x) as Hin.
  rewrite partition_as_filter in E. injection E as <- <-.
  rewrite !filter_In. split; split; try tauto.
  - intros [H1 H2]. split; [assumption |].
    now destruct (p x).
  - intros [H1 H2]. split; [assumption |]. now rewrite H2.
Qed.


(** C6.  In a forest whose [maxTreeHeight] is the [ceil(log2(treeSize))]
    the constructor derived (the integer [k] with
    [k - 1 < log2(treeSize) <= k]), [growTree] makes a leaf as soon as
    the sample has at most one element or the height has reached
    [maxTreeHeight], and the tree it returns from height 0 has no node
    deeper than [maxTreeHeight]. *)
Theorem growTree_depth_le_maxTreeHeight (G : URBG) (f : IsolationForest G)
    (sample : list nat) (g : engine G) :
  (1 <= treeSize f)%nat ->
  maxTreeHeight f = ceil_log2 (treeSize f) ->
  (IZR (maxTreeHeight f) - 1 < ln (INR (treeSize f)) / ln 2
     <= IZR (maxTreeHeight f))%R
  /\ (forall fuel smp height g0,
        (List.length smp <= 1)%nat \/ (maxTreeHeight f <= height)%Z ->
        growTree_fuel f fuel smp height g0
        = Some (ExNode (List.length smp), g0))
  /\ exists t g',
      growTree f sample g = Some (t, g')
      /\ forall d m, AtDepth t d m -> (0 <= d <= maxTreeHeight f)%Z.
Proof.
  intros Hsize Hmax. split; [| split].
  - rewrite Hmax. now apply ceil_log2_real.
  - intros fuel smp height g0 H. now apply growTree_fuel_leaf.
  - destruct (growTree_total f sample g) as (t & g' & E).
    exists t, g'. split; [exact E |].
    intros d m Hd. apply AtDepth_le_node_depth in Hd.
    apply growTree_fuel_depth in E.
    assert (0 <= maxTreeHeight f)%Z
      by (rewrite Hmax; apply Z.log2_up_nonneg).
    lia.
Qed.

(** ** Sampling and forest growth *)

Section Growth.

Variable G : URBG.

(** [std::sample] returns [min(n, size)] elements. *)
Lemma sample_loop_length pop :
  forall unsampled n g,
    unsampled = List.length pop -> (n <= unsampled)%nat ->
    List.length (fst (sample_loop G pop unsampled n g)) = n.
Proof.
  induction pop as [| x rest IH]; intros unsampled n g Hu Hn; simpl in *.
  - lia.
  - destruct (Nat.eqb_spec n 0) as [-> | Hn0]; [reflexivity |].
    pose proof (@uniform_int_range G 0%N (N.of_nat (unsampled - 1)) g) as Hr.
    destruct (uniform_int G 0 (N.of_nat (unsampled - 1)) g) as [r g1].
    cbn [fst] in Hr. specialize (Hr ltac:(lia)).
    destruct (N.ltb_spec r (N.of_nat n)) as [Hlt | Hge].
    + specialize (IH (unsampled - 1)%nat (n - 1)%nat g1 ltac:(lia) ltac:(lia)).
      destruct (sample_loop G rest (unsampled - 1) (n - 1) g1) as [out g2].
      cbn [fst List.length] in *. lia.
    + apply IH; lia.
Qed.

Lemma std_sample_length pop n g :
  List.length (fst (std_sample G pop n g))
  = Nat.min n (List.length pop).
Proof.
  unfold std_sample. apply sample_loop_length; lia.
Qed.

(** It only returns elements of the population, and none twice when
    the population has no repetition. *)
Lemma sample_loop_incl pop :
  forall unsampled n g x,
    In x (fst (sample_loop G pop unsampled n g)) -> In x pop.
Proof.
  induction pop as [| y rest IH]; intros unsampled n g x; simpl.
  - tauto.
  - destruct (n =? 0)%nat; [simpl; tauto |].
    destruct (uniform_int G 0 (N.of_nat (unsampled - 1)) g) as [r g1].
    destruct (r <? N.of_nat n)%N.
    + specialize (IH (unsampled - 1)%nat (n - 1)%nat g1 x).
      destruct (sample_loop G rest (unsampled - 1) (n - 1) g1) as [out g2].
      simpl in *. tauto.
    + intros H. right. eapply IH, H.
Qed.

Lemma sample_loop_NoDup pop :
  forall unsampled n g,
    NoDup pop -> NoDup (fst (sample_loop G pop unsampled n g)).
Proof.
  induction pop as [| y rest IH]; intros unsampled n g Hnd; simpl.
  - constructor.
  - inversion Hnd as [| ? ? Hy Hrest]; subst.
    destruct (n =? 0)%nat; [constructor |].
    destruct (uniform_int G 0 (N.of_nat (unsampled - 1)) g) as [r g1].
    destruct (r <? N.of_nat n)%N.
    + specialize (IH (unsampled - 1)%nat (n - 1)%nat g1 Hrest).
      pose proof (sample_loop_incl rest (unsampled - 1) (n - 1) g1 y) as Hi.
      destruct (sample_loop G rest (unsampled - 1) (n - 1) g1) as [out g2].
      simpl in *. constructor; tauto.
    + now apply IH.
Qed.

Lemma std_sample_iota_NoDup nobs n g :
  NoDup (fst (std_sample G (iota nobs) n g))
  /\ forall x, In x (fst (std_sample G (iota nobs) n g)) -> (x < nobs)%nat.
Proof.
  unfold std_sample, iota. split.
  - apply sample_loop_NoDup, seq_NoDup.
  - intros x H. apply sample_loop_incl in H. apply in_seq in H. lia.
Qed.

(** What [push_tree] leaves alone. *)
Lemma push_tree_config (f : IsolationForest G) t g :
  treeSize (push_tree f t g) = treeSize f
  /\ forestSize (push_tree f t g) = forestSize f
  /\ maxTreeHeight (push_tree f t g) = maxTreeHeight f
  /\ nObs (push_tree f t g) = nObs f
  /\ n_num_attrs (push_tree f t g) = n_num_attrs f
  /\ data (push_tree f t g) = data f
  /\ uniformDist (push_tree f t g) = uniformDist f.
Proof. repeat split. Qed.

(** [growTree] reads the forest's configuration only. *)
Lemma growTree_fuel_push_tree (f : IsolationForest G) t g0 fuel :
  forall sample height g,
    growTree_fuel (push_tree f t g0) fuel sample height g
    = growTree_fuel f fuel sample height g.
Proof.
  induction fuel as [| fuel IH]; intros sample height g;
    cbn [growTree_fuel]; [reflexivity |].
  cbn [push_tree maxTreeHeight uniformDist n_num_attrs data].
  destruct (_ || _); [reflexivity |].
  destruct (uniform_int G _ _ g) as [attrN g1].
  destruct (uniform_int G 0 _ g1) as [k g2].
  destruct (N.to_nat attrN <? n_num_attrs f)%nat.
  - destruct (split_num _ _ _ _) as [lobs robs].
    rewrite IH. destruct (growTree_fuel f fuel lobs (height + 1) g2)
      as [[l g3] |]; [| reflexivity].
    rewrite IH. reflexivity.
  - destruct (split_char _ _ _ _) as [lobs robs].
    rewrite IH. destruct (growTree_fuel f fuel lobs (height + 1) g2)
      as [[l g3] |]; [| reflexivity].
    rewrite IH. reflexivity.
Qed.

(** [growForest]: every iteration appends one tree, grown from a fresh
    sample of [min(treeSize, size of obs)] indices. *)
Lemma growForest_loop_spec iterations :
  forall (f : IsolationForest G) obs,
  exists f' new,
    growForest_loop f obs iterations = Some f'
    /\ trees f' = trees f ++ new
    /\ List.length new = iterations
    /\ Forall (fun t => node_nObs (root t)
                        = Nat.min (treeSize f) (List.length obs)) new
    /\ treeSize f' = treeSize f /\ forestSize f' = forestSize f
    /\ maxTreeHeight f' = maxTreeHeight f /\ nObs f' = nObs f.
Proof.
  induction iterations as [| n IH]; intros f obs; cbn [growForest_loop].
  - exists f, []. rewrite app_nil_r. repeat split; constructor.
  - pose proof (std_sample_length obs (treeSize f) (randomGen f)) as Hlen.
    destruct (std_sample G obs (treeSize f) (randomGen f)) as [sample g1].
    cbn [fst] in Hlen.
    destruct (growTree_total f sample g1) as (rt & g2 & E).
    rewrite E.
    pose proof (growTree_fuel_root_nObs _ _ _ _ _ E) as Hroot.
    destruct (IH (push_tree f (mkTree rt) g2) obs)
      as (f' & new & E' & Ht & Hl & Hall & H1 & H2 & H3 & H4).
    exists f', (mkTree rt :: new). rewrite E'.
    cbn [push_tree trees treeSize forestSize maxTreeHeight nObs] in *.
    rewrite Ht, <- app_assoc. repeat split; try assumption.
    + cbn [List.length]. lia.
    + constructor; [cbn [root]; lia | exact Hall].
Qed.

(** [grow]: the sample vector outlives the iterations, so the tree of
    iteration [i] (from 0) is grown from everything sampled so far. *)
Lemma grow_loop_spec iterations :
  forall (f : IsolationForest G) obs sample,
  exists f' new,
    grow_loop f obs sample iterations = Some f'
    /\ trees f' = trees f ++ new
    /\ List.length new = iterations
    /\ (forall i, (i < iterations)%nat ->
          node_nObs (root (nth i new (mkTree (ExNode 0))))
          = (List.length sample
             + (i + 1) * Nat.min (treeSize f) (List.length obs))%nat)
    /\ treeSize f' = treeSize f /\ forestSize f' = forestSize f.
Proof.
  induction iterations as [| n IH]; intros f obs sample; cbn [grow_loop].
  - exists f, []. rewrite app_nil_r. repeat split. intros i Hi. lia.
  - pose proof (std_sample_length obs (treeSize f) (randomGen f)) as Hlen.
    destruct (std_sample G obs (treeSize f) (randomGen f)) as [out g1].
    cbn [fst] in Hlen. cbv zeta.
    destruct (growTree_total f (sample ++ out) g1) as (rt & g2 & E).
    rewrite E.
    pose proof (growTree_fuel_root_nObs _ _ _ _ _ E) as Hroot.
    rewrite length_app in Hroot.
    destruct (IH (push_tree f (mkTree rt) g2) obs (sample ++ out))
      as (f' & new & E' & Ht & Hl & Hall & H1 & H2).
    exists f', (mkTree rt :: new). rewrite E'.
    cbn [push_tree trees treeSize forestSize] in *.
    rewrite Ht, <- app_assoc. repeat split; try assumption.
    + cbn [List.length]. lia.
    + intros [| i] Hi; cbn [nth root].
      * lia.
      * rewrite Hall by lia. rewrite length_app. lia.
Qed.

End Growth.

Lemma growTree_depth_le_maxTreeHeight_witness :
  let f := forest_of two_obs 2 1 0 in
  (1 <= treeSize f)%nat
  /\ maxTreeHeight f = ceil_log2 (treeSize f)
  /\ ((IZR (maxTreeHeight f) - 1 < ln (INR (treeSize f)) / ln 2
         <= IZR (maxTreeHeight f))%R
      /\ (forall fuel smp height g0,
            (List.length smp <= 1)%nat \/ (maxTreeHeight f <= height)%Z ->
            growTree_fuel f fuel smp height g0
            = Some (ExNode (List.length smp), g0))
      /\ exists t g',
          growTree f [0%nat; 1%nat] (randomGen f) = Some (t, g')
          /\ forall d m, AtDepth t d m -> (0 <= d <= maxTreeHeight f)%Z).
Proof.
  cbv zeta. split; [simpl; lia |]. split; [reflexivity |].
  apply growTree_depth_le_maxTreeHeight; [simpl; lia | reflexivity].
Defined.

(** C3.  What [grow(jobs)] does: it returns, having appended [jobs]
    trees, and the tree of iteration [i] (counted from 0) is grown from
    a sample of [(i + 1) * min(treeSize, nObs)] indices, because the
    sample vector is never cleared between iterations.  Only the first
    tree is grown from [treeSize] indices. *)
Theorem grow_sample_accumulates (G : URBG) (f : IsolationForest G)
    (jobs : nat) :
  exists f' new,
    grow f jobs = Some f'
    /\ trees f' = trees f ++ new
    /\ List.length new = jobs
    /\ forall i, (i < jobs)%nat ->
         node_nObs (root (nth i new (mkTree (ExNode 0))))
         = ((i + 1) * Nat.min (treeSize f) (nObs f))%nat.
Proof.
  unfold grow, iota.
  destruct (grow_loop_spec jobs f (seq 0 (nObs f)) [])
    as (f' & new & E & Ht & Hl & Hall & _).
  exists f', new. repeat split; try assumption.
  intros i Hi. rewrite Hall by assumption.
  rewrite length_seq. reflexivity.
Qed.

(** With two observations and [treeSize = 2], the second tree of
    [grow(2)] is grown from four indices: some index is repeated. *)
Lemma grow_two_jobs_example :
  option_map (fun f' => map (fun t => node_nObs (root t)) (trees f'))
             (grow (forest_of two_obs 2 1 0) 2)
  = Some [2%nat; 4%nat].
Proof. vm_compute. reflexivity. Qed.

(** In [growForest] the sample is local to the iteration: every tree
    is grown from [min(treeSize, nObs)] indices without repetition. *)
Lemma growForest_sample_size (G : URBG) (f : IsolationForest G) :
  exists f' new,
    growForest f = Some f'
    /\ trees f' = trees f ++ new
    /\ List.length new = forestSize f
    /\ Forall (fun t => node_nObs (root t)
                        = Nat.min (treeSize f) (nObs f)) new.
Proof.
  unfold growForest, iota.
  destruct (growForest_loop_spec (forestSize f) f (seq 0 (nObs f)))
    as (f' & new & E & Ht & Hl & Hall & _).
  exists f', new. rewrite length_seq in Hall. auto.
Qed.

(** After [growForest()] on a fresh forest the number of owned trees
    is [forestSize]; every job [grow(jobs)] adds [jobs] trees and
    leaves [forestSize] as it was. *)
Lemma growForest_then_grow_tree_count (G : URBG) (d : DataSource)
    (tSize fSize seed jobs : nat) :
  exists f1 f2,
    growForest (IsolationForest_new G d tSize fSize seed) = Some f1
    /\ grow f1 jobs = Some f2
    /\ List.length (trees f1) = forestSize f1
    /\ forestSize f2 = forestSize f1
    /\ List.length (trees f2) = (forestSize f2 + jobs)%nat.
Proof.
  destruct (growForest_loop_spec fSize
              (IsolationForest_new G d tSize fSize seed)
              (iota (num_dim1 d)))
    as (f1 & new1 & E1 & Ht1 & Hl1 & _ & _ & Hfs1 & _).
  destruct (grow_loop_spec jobs f1 (iota (nObs f1)) [])
    as (f2 & new2 & E2 & Ht2 & Hl2 & _ & _ & Hfs2).
  exists f1, f2.
  cbn [IsolationForest_new trees forestSize app] in *.
  repeat split; try assumption.
  - rewrite Ht1. lia.
  - rewrite Hfs2, Ht2, length_app, Ht1. lia.
Qed.

(** C5 (as the code has it).  No configuration is refused: for every
    data source, [treeSize], [forestSize] and seed the constructor
    returns a forest, and [growForest] on it returns with [forestSize]
    trees, each grown from [min(treeSize, observationCount)] indices;
    when [treeSize] exceeds the observation count that is every
    observation. *)
Theorem growForest_accepts_any_treeSize (G : URBG) (d : DataSource)
    (tSize fSize seed : nat) :
  exists f',
    growForest (IsolationForest_new G d tSize fSize seed) = Some f'
    /\ List.length (trees f') = fSize
    /\ Forall (fun t => node_nObs (root t)
                        = Nat.min tSize (num_dim1 d)) (trees f').
Proof.
  destruct (growForest_sample_size
              (IsolationForest_new G d tSize fSize seed))
    as (f' & new & E & Ht & Hl & Hall).
  cbn [IsolationForest_new trees forestSize treeSize nObs app] in *.
  exists f'. rewrite Ht. auto.
Qed.

(** With two observations and [treeSize = 3], [growForest] builds its
    tree, from both observations; nothing fails. *)
Lemma growForest_oversized_treeSize_builds :
  option_map (fun f' => map (fun t => node_nObs (root t)) (trees f'))
             (growForest (forest_of two_obs 3 1 0))
  = Some [2%nat].
Proof. vm_compute. reflexivity. Qed.

(** ** Determinism of the synchronous build *)

Section Determinism.

Variable G : URBG.

Lemma partition_ext (A : Type) (p q : A -> bool) (l : list A) :
  (forall x, p x = q x) -> partition p l = partition q l.
Proof.
  intros H. induction l as [| x l IH]; simpl; [reflexivity |].
  now rewrite IH, H.
Qed.

Lemma split_num_ext d1 d2 attr val sample :
  data_agree d1 d2 ->
  split_num d1 attr val sample = split_num d2 attr val sample.
Proof.
  intros (_ & _ & _ & Hnum & _). unfold split_num.
  apply partition_ext. intros i. now rewrite Hnum.
Qed.

Lemma split_char_ext d1 d2 cattr val sample :
  data_agree d1 d2 ->
  split_char d1 cattr val sample = split_char d2 cattr val sample.
Proof.
  intros (_ & _ & _ & _ & Hchar). unfold split_char.
  apply partition_ext. intros i. now rewrite Hchar.
Qed.

Lemma growTree_fuel_ext (f1 f2 : IsolationForest G) :
  same_config f1 f2 ->
  forall fuel sample height g,
    growTree_fuel f1 fuel sample height g
    = growTree_fuel f2 fuel sample height g.
Proof.
  intros (Hd & _ & _ & Hm & Hn & _ & Hu).
  pose proof Hd as (_ & _ & _ & Hnum & Hchar).
  induction fuel as [| fuel IH]; intros sample height g;
    cbn [growTree_fuel]; rewrite <- Hm; [reflexivity |].
  destruct (_ || _); [reflexivity |].
  rewrite <- Hu, <- Hn.
  destruct (uniform_int G _ _ g) as [attrN g1].
  destruct (uniform_int G 0 _ g1) as [k g2].
  destruct (N.to_nat attrN <? n_num_attrs f1)%nat.
  - rewrite <- Hnum, <- (split_num_ext _ _ _ Hd).
    destruct (split_num _ _ _ sample) as [lobs robs].
    rewrite IH.
    destruct (growTree_fuel f2 fuel lobs (height + 1) g2)
      as [[l g3] |]; [| reflexivity].
    rewrite IH. reflexivity.
  - rewrite <- Hchar, <- (split_char_ext _ _ _ Hd).
    destruct (split_char _ _ _ sample) as [lobs robs].
    rewrite IH.
    destruct (growTree_fuel f2 fuel lobs (height + 1) g2)
      as [[l g3] |]; [| reflexivity].
    rewrite IH. reflexivity.
Qed.

Lemma pathLength_ext (f1 f2 : IsolationForest G) ob :
  same_config f1 f2 ->
  forall node length,
    pathLength f1 ob node length = pathLength f2 ob node length.
Proof.
  intros (Hd & _ & _ & _ & Hn & _ & _).
  destruct Hd as (_ & _ & _ & Hnum & Hchar).
  induction node as [k | a v c k l IHl r IHr]; intros len;
    cbn [pathLength]; [reflexivity |].
  rewrite <- Hn, <- Hnum, <- Hchar, !IHl, !IHr. reflexivity.
Qed.

Lemma same_config_push_tree (f1 f2 : IsolationForest G) t g :
  same_config f1 f2 ->
  same_config (push_tree f1 t g) (push_tree f2 t g).
Proof. intros H. exact H. Qed.

Lemma growForest_loop_ext iterations :
  forall (f1 f2 : IsolationForest G) obs f1',
    same_config f1 f2 ->
    trees f1 = trees f2 -> randomGen f1 = randomGen f2 ->
    growForest_loop f1 obs iterations = Some f1' ->
    exists f2',
      growForest_loop f2 obs iterations = Some f2'
      /\ same_config f1' f2'
      /\ trees f1' = trees f2'.
Proof.
  induction iterations as [| n IH];
    intros f1 f2 obs f1' Hc Ht Hg; cbn [growForest_loop].
  - intros [= <-]. exists f2. auto.
  - pose proof Hc as (_ & Hts & _). rewrite <- Hts, <- Hg.
    destruct (std_sample G obs (treeSize f1) (randomGen f1))
      as [sample g1].
    unfold growTree.
    pose proof Hc as (_ & _ & _ & Hm & _). rewrite <- Hm.
    rewrite <- (growTree_fuel_ext Hc).
    destruct (growTree_fuel f1 _ sample 0 g1) as [[rt g2] |];
      [| discriminate].
    intros H. eapply IH in H; [exact H | | |].
    + now apply same_config_push_tree.
    + cbn [push_tree trees]. now rewrite Ht.
    + reflexivity.
Qed.

Lemma sum_pathLength_ext (f1 f2 : IsolationForest G) ob :
  same_config f1 f2 -> trees f1 = trees f2 ->
  sum_pathLength f1 ob = sum_pathLength f2 ob.
Proof.
  intros Hc Ht. unfold sum_pathLength. rewrite <- Ht. clear Ht.
  generalize (DFin 0).
  induction (trees f1) as [| t ts IH]; intros acc; simpl; [reflexivity |].
  rewrite (pathLength_ext ob Hc). apply IH.
Qed.

Lemma anomalyScore_ext (f1 f2 : IsolationForest G) ob :
  same_config f1 f2 -> trees f1 = trees f2 ->
  anomalyScore f1 ob = anomalyScore f2 ob.
Proof.
  intros Hc Ht. unfold anomalyScore, average_pathLength.
  rewrite (sum_pathLength_ext ob Hc Ht).
  destruct Hc as (_ & Hts & Hfs & _).
  now rewrite Hts, Hfs.
Qed.

End Determinism.

(** C9.  Two forests constructed with the same seed, [treeSize] and
    [forestSize] over data sources that hold the same cells, each
    populated by one call of [growForest], give the same
    [anomalyScore] to every observation index. *)
Theorem growForest_deterministic (G : URBG) (d1 d2 : DataSource)
    (tSize fSize seed : nat) :
  data_agree d1 d2 ->
  exists f1 f2,
    growForest (IsolationForest_new G d1 tSize fSize seed) = Some f1
    /\ growForest (IsolationForest_new G d2 tSize fSize seed) = Some f2
    /\ trees f1 = trees f2
    /\ forall ob, anomalyScore f1 ob = anomalyScore f2 ob.
Proof.
  intros Hd.
  destruct (growForest_sample_size
              (IsolationForest_new G d1 tSize fSize seed))
    as (f1 & _ & E1 & _).
  assert (Hc : same_config (IsolationForest_new G d1 tSize fSize seed)
                           (IsolationForest_new G d2 tSize fSize seed)).
  { pose proof Hd as (H0 & H1 & H2 & _).
    unfold same_config. cbn. rewrite H0, H1, H2.
    repeat split; try reflexivity; apply Hd. }
  unfold growForest in *.
  replace (nObs (IsolationForest_new G d2 tSize fSize seed))
    with (nObs (IsolationForest_new G d1 tSize fSize seed))
    by (apply Hc).
  replace (forestSize (IsolationForest_new G d2 tSize fSize seed))
    with (forestSize (IsolationForest_new G d1 tSize fSize seed))
    by reflexivity.
  destruct (growForest_loop_ext _ _ Hc eq_refl eq_refl E1)
    as (f2 & E2 & Hc' & Ht).
  exists f1, f2. repeat split; try assumption.
  intros ob. now apply anomalyScore_ext.
Qed.

Lemma two_obs_copy_agrees : data_agree two_obs two_obs_copy.
Proof.
  repeat split. intros a [| i]; reflexivity.
Qed.

Lemma growForest_deterministic_witness :
  data_agree two_obs two_obs_copy
  /\ exists f1 f2,
      growForest (IsolationForest_new LCG.urbg two_obs 2 3 7) = Some f1
      /\ growForest (IsolationForest_new LCG.urbg two_obs_copy 2 3 7)
         = Some f2
      /\ trees f1 = trees f2
      /\ forall ob, anomalyScore f1 ob = anomalyScore f2 ob.
Proof.
  split; [exact two_obs_copy_agrees |].
  apply growForest_deterministic. exact two_obs_copy_agrees.
Defined.

(** ** The arithmetic of the scoring code *)

Local Open Scope R_scope.

Lemma Rzero_b_true r : r = 0 -> Rzero_b r = true.
Proof. intros ->. unfold Rzero_b. destruct (Req_dec_T 0 0); tauto. Qed.

Lemma Rzero_b_false r : r <> 0 -> Rzero_b r = false.
Proof. intros H. unfold Rzero_b. destruct (Req_dec_T r 0); tauto. Qed.

Lemma Rneg_b_true r : r < 0 -> Rneg_b r = true.
Proof. intros H. unfold Rneg_b. destruct (Rlt_dec r 0); tauto. Qed.

Lemma Rneg_b_false r : 0 <= r -> Rneg_b r = false.
Proof.
  intros H. unfold Rneg_b. destruct (Rlt_dec r 0); [lra | reflexivity].
Qed.

Lemma INR_ge_2 n : (2 <= n)%nat -> 2 <= INR n.
Proof. intros H. apply le_INR in H. simpl in H. lra. Qed.

Lemma Dsub_fin a b : Dsub (DFin a) (DFin b) = DFin (a - b).
Proof. reflexivity. Qed.

(** For two observations or more every operation of
    [averagePathLength] is on finite values. *)
Lemma averagePathLength_finite n :
  (2 <= n)%nat ->
  averagePathLength n = DFin (averagePathLength_R (INR n)).
Proof.
  intros Hn. apply INR_ge_2 in Hn.
  unfold averagePathLength, averagePathLength_R, D_of_nat.
  cbv zeta. rewrite !Dsub_fin. cbn [Dlog].
  rewrite (Rzero_b_false (r := INR n - 1)) by lra.
  rewrite (Rneg_b_false (r := INR n - 1)) by lra.
  cbn [Dadd Dmul Ddiv].
  rewrite (Rzero_b_false (r := INR n)) by lra.
  rewrite Dsub_fin. reflexivity.
Qed.

(** ln x - ln (x - 1) >= 1/x, from 1 + y <= exp y at y = -1/x. *)
Lemma ln_step x : 1 < x -> / x <= ln x - ln (x - 1).
Proof.
  intros Hx.
  assert (Hinv : 0 < / x < 1).
  { split; [apply Rinv_0_lt_compat; lra |].
    rewrite <- Rinv_1. apply Rinv_lt_contravar; lra. }
  assert (Hle : ln (1 - / x) <= - / x).
  { pose proof (exp_ineq1_le (- / x)) as Hexp.
    destruct (Req_dec (1 - / x) (exp (- / x))) as [E | N].
    - rewrite E, ln_exp. lra.
    - pose proof (ln_increasing (1 - / x) (exp (- / x))) as Hinc.
      rewrite ln_exp in Hinc. lra. }
  assert (E : x - 1 = x * (1 - / x)) by (field; lra).
  rewrite E, ln_mult by lra. lra.
Qed.

Lemma averagePathLength_R_step x :
  2 <= x -> averagePathLength_R x < averagePathLength_R (x + 1).
Proof.
  intros Hx. unfold averagePathLength_R.
  replace (x + 1 - 1) with x by ring.
  pose proof (ln_step (x := x) ltac:(lra)) as Hln.
  assert (E : 2 * x / (x + 1) - 2 * (x - 1) / x = 2 * / x - 2 * / (x + 1))
    by (field; lra).
  assert (Hpos : 0 < / (x + 1)) by (apply Rinv_0_lt_compat; lra).
  lra.
Qed.

Lemma averagePathLength_R_2 : 0 < averagePathLength_R 2.
Proof.
  unfold averagePathLength_R, EULER_GAMMA.
  replace (2 - 1) with 1 by ring. rewrite ln_1. lra.
Qed.

Lemma averagePathLength_R_pos n :
  (2 <= n)%nat -> 0 < averagePathLength_R (INR n).
Proof.
  induction 1 as [| m Hm IH].
  - simpl. replace (1 + 1) with 2 by ring. exact averagePathLength_R_2.
  - rewrite S_INR.
    pose proof (averagePathLength_R_step (INR_ge_2 Hm)). lra.
Qed.

Lemma averagePathLength_R_increasing n m :
  (2 <= n)%nat -> (n < m)%nat ->
  averagePathLength_R (INR n) < averagePathLength_R (INR m).
Proof.
  intros Hn. induction 1 as [| k Hk IH].
  - rewrite S_INR. apply averagePathLength_R_step, INR_ge_2, Hn.
  - rewrite S_INR.
    assert (Hk2 : (2 <= k)%nat) by lia.
    pose proof (averagePathLength_R_step (INR_ge_2 Hk2)). lra.
Qed.

Lemma averagePathLength_finite_pos n :
  (2 <= n)%nat -> Dfinite_pos (averagePathLength n).
Proof.
  intros Hn. exists (averagePathLength_R (INR n)).
  split; [now apply averagePathLength_finite |].
  now apply averagePathLength_R_pos.
Qed.





(** ** Scoring *)

(** [averagePathLength(1)] takes the logarithm of zero: the result is
    minus infinity. *)
Lemma averagePathLength_1 : averagePathLength 1 = DInf true.
Proof.
  unfold averagePathLength, D_of_nat. cbv zeta.
  rewrite !Dsub_fin. cbn [Dlog INR].
  rewrite (Rzero_b_true (r := 1 - 1)) by ring.
  cbn [Dadd Dmul].
  rewrite (Rzero_b_false (r := 2)) by lra.
  rewrite (Rneg_b_false (r := 2)) by lra.
  cbn [xorb Ddiv].
  rewrite (Rzero_b_false (r := 1)) by lra.
  reflexivity.
Qed.

Lemma not_Dfinite_pos_inf s : ~ Dfinite_pos (DInf s).
Proof. intros (r & H & _). discriminate H. Qed.

(** [pathLength] always returns a finite value, not below the length
    it was called with. *)
Lemma pathLength_finite (G : URBG) (f : IsolationForest G) ob node :
  forall length,
    exists r, pathLength f ob node length = DFin r /\ IZR length <= r.
Proof.
  induction node as [k | a v c k l IHl r IHr]; intros len;
    cbn [pathLength].
  - destruct (Nat.leb_spec k 1) as [Hk | Hk].
    + exists (IZR len). split; [reflexivity | lra].
    + rewrite averagePathLength_finite by lia.
      pose proof (averagePathLength_R_pos (n := k) ltac:(lia)).
      unfold D_of_Z. cbn [Dadd]. eexists. split; [reflexivity | lra].
  - assert (Hl : exists x, pathLength f ob l (len + 1) = DFin x
                           /\ IZR len <= x).
    { destruct (IHl (len + 1)%Z) as (x & E & Hx).
      exists x. split; [exact E |]. rewrite plus_IZR in Hx. lra. }
    assert (Hr : exists x, pathLength f ob r (len + 1) = DFin x
                           /\ IZR len <= x).
    { destruct (IHr (len + 1)%Z) as (x & E & Hx).
      exists x. split; [exact E |]. rewrite plus_IZR in Hx. lra. }
    destruct (a <? n_num_attrs f)%nat.
    + destruct (fle _ v); assumption.
    + destruct (_ <? _)%nat; [assumption |].
      destruct (_ <? _)%nat; [assumption |].
      destruct (_ <=? _)%Z; assumption.
Qed.

(** The sum of line 128 is finite and not negative. *)
Lemma sum_pathLength_finite (G : URBG) (f : IsolationForest G) ob :
  exists r, sum_pathLength f ob = DFin r /\ 0 <= r.
Proof.
  unfold sum_pathLength.
  assert (H : forall ts acc, 0 <= acc ->
            exists r,
              fold_left
                (fun avg tree => Dadd avg (pathLength f ob (root tree) 0))
                ts (DFin acc) = DFin r /\ 0 <= r).
  { induction ts as [| t ts IH]; intros acc Hacc; cbn [fold_left].
    - exists acc. auto.
    - destruct (pathLength_finite f ob (root t) 0) as (x & E & Hx).
      rewrite E. cbn [Dadd]. apply IH. simpl in Hx. lra. }
  apply H. lra.
Qed.

(** When [forestSize] counts the owned trees, [anomalyScore] is that
    mean. *)
Lemma anomalyScore_mean_when_sizes_agree (G : URBG)
    (f : IsolationForest G) ob :
  forestSize f = List.length (trees f) ->
  anomalyScore f ob = anomalyScore_mean f ob.
Proof.
  intros H. unfold anomalyScore, anomalyScore_mean, average_pathLength.
  now rewrite H.
Qed.

(** A forest with no tree and [forestSize = 0]: the averaging step
    divides zero by zero. *)
Lemma anomalyScore_no_tree (G : URBG) (f : IsolationForest G) ob :
  forestSize f = 0%nat -> trees f = [] ->
  average_pathLength f ob = DNaN /\ anomalyScore f ob = DNaN.
Proof.
  intros Hfs Ht.
  assert (E : average_pathLength f ob = DNaN).
  { unfold average_pathLength, sum_pathLength, D_of_nat.
    rewrite Hfs, Ht. cbn [fold_left INR Ddiv].
    now rewrite Rzero_b_true by reflexivity. }
  split; [exact E |].
  unfold anomalyScore. rewrite E. reflexivity.
Qed.

(** C4 (as the code has it).  A forest constructed with
    [forestSize = 0] raises nothing when scored: before and after
    [growForest] it owns no tree, the averaging step divides 0 by 0,
    and [anomalyScore] returns NaN for every observation. *)
Theorem anomalyScore_zero_forestSize_is_nan (G : URBG) (d : DataSource)
    (tSize seed : nat) (ob : nat) :
  anomalyScore (IsolationForest_new G d tSize 0 seed) ob = DNaN
  /\ growForest (IsolationForest_new G d tSize 0 seed)
     = Some (IsolationForest_new G d tSize 0 seed)
  /\ average_pathLength (IsolationForest_new G d tSize 0 seed) ob = DNaN.
Proof.
  destruct (@anomalyScore_no_tree G (IsolationForest_new G d tSize 0 seed)
              ob eq_refl eq_refl) as [Ha Hs].
  repeat split; assumption.
Qed.

(** Scoring observation 0 in a forest built with [forestSize = 0]
    returns NaN; no error is signalled. *)
Lemma anomalyScore_forestSize_0_example :
  exists f',
    growForest (forest_of two_obs 2 0 0) = Some f'
    /\ anomalyScore f' 0 = DNaN.
Proof.
  exists (forest_of two_obs 2 0 0). split; [reflexivity |].
  now apply anomalyScore_no_tree.
Qed.

Lemma Ddiv_fin a b : b <> 0 -> Ddiv (DFin a) (DFin b) = DFin (a / b).
Proof. intros H. cbn [Ddiv]. now rewrite Rzero_b_false. Qed.

(** With a non-zero [forestSize] the average of line 129 is finite. *)
Lemma average_pathLength_finite (G : URBG) (f : IsolationForest G) ob :
  forestSize f <> 0%nat ->
  exists r, average_pathLength f ob = DFin r /\ 0 <= r.
Proof.
  intros Hfs. unfold average_pathLength, D_of_nat.
  destruct (sum_pathLength_finite f ob) as (s & E & Hs).
  assert (0 < INR (forestSize f)) by (apply lt_0_INR; lia).
  rewrite E, Ddiv_fin by lra.
  eexists. split; [reflexivity |].
  apply Rmult_le_pos; [lra |]. apply Rlt_le, Rinv_0_lt_compat. lra.
Qed.

(** Dividing a finite average by minus infinity gives zero, and
    [pow(2, 0)] is 1. *)
Lemma anomalyScore_infinite_divisor (G : URBG) (f : IsolationForest G) ob :
  treeSize f = 1%nat -> forestSize f <> 0%nat ->
  anomalyScore f ob = DFin 1.
Proof.
  intros Hts Hfs. unfold anomalyScore. cbv zeta.
  destruct (average_pathLength_finite f ob Hfs) as (a & E & _).
  rewrite E, Hts, averagePathLength_1. cbn [Dneg Ddiv Dpow2].
  now rewrite Rpower_O by lra.
Qed.

(** C10 (as the code has it).  With [treeSize = 1] the divisor
    [averagePathLength(treeSize)] is minus infinity, not a finite
    positive number; the divisor is finite and positive for every
    [treeSize >= 2].  The score is nevertheless a number: with
    [treeSize = 1] and [forestSize >= 1] the exponent is a finite
    average over minus infinity, that is zero, and [anomalyScore]
    returns 1 for every observation. *)
Theorem anomalyScore_treeSize_1 (G : URBG) (f : IsolationForest G)
    (ob : nat) :
  treeSize f = 1%nat -> forestSize f <> 0%nat ->
  averagePathLength (treeSize f) = Dlog (DFin 0)
  /\ averagePathLength (treeSize f) = DInf true
  /\ ~ Dfinite_pos (averagePathLength (treeSize f))
  /\ (forall n, (2 <= n)%nat -> Dfinite_pos (averagePathLength n))
  /\ anomalyScore f ob = DFin 1.
Proof.
  intros Hts Hfs. rewrite Hts, averagePathLength_1.
  split; [| split; [| split; [| split]]].
  - cbn [Dlog]. now rewrite Rzero_b_true.
  - reflexivity.
  - apply not_Dfinite_pos_inf.
  - exact averagePathLength_finite_pos.
  - now apply anomalyScore_infinite_divisor.
Qed.

Lemma anomalyScore_treeSize_1_witness :
  exists f',
    growForest (forest_of one_obs 1 1 0) = Some f'
    /\ (averagePathLength (treeSize f') = Dlog (DFin 0)
        /\ averagePathLength (treeSize f') = DInf true
        /\ ~ Dfinite_pos (averagePathLength (treeSize f'))
        /\ (forall n, (2 <= n)%nat -> Dfinite_pos (averagePathLength n))
        /\ anomalyScore f' 0 = DFin 1).
Proof.
  eexists. split; [vm_compute; reflexivity |].
  apply anomalyScore_treeSize_1; [reflexivity | simpl; lia].
Defined.

(** One observation, [treeSize = 1], one tree: the score of the
    observation is 1, a finite value in (0, 1]. *)
Lemma anomalyScore_treeSize_1_is_a_score :
  exists f',
    growForest (forest_of one_obs 1 1 0) = Some f'
    /\ treeSize f' = 1%nat
    /\ Dunit_score (anomalyScore f' 0).
Proof.
  eexists. split; [vm_compute; reflexivity |].
  split; [reflexivity |].
  exists 1. split; [| lra].
  apply anomalyScore_infinite_divisor; [reflexivity | simpl; lia].
Qed.

Lemma Rpower_2_inj a b : Rpower 2 a = Rpower 2 b -> a = b.
Proof.
  unfold Rpower. intros H. apply exp_inv in H.
  pose proof ln_lt_2 as Hln.
  apply Rmult_eq_reg_r in H; [exact H | lra].
Qed.

(** C2.  A forest constructed with [forestSize = 1], grown by
    [growForest()] and then by one job [grow(1)], owns two trees and
    still has [forestSize = 1].  Observation 0 has path length 1 in
    both trees: the sum is 2, line 129 divides it by [forestSize] and
    gets 2, not the mean 1 over the two owned trees, and the score
    differs from the score computed with that mean. *)
Theorem anomalyScore_divides_by_forestSize :
  exists f1 f2,
    growForest (forest_of two_obs 2 1 2) = Some f1
    /\ grow f1 1 = Some f2
    /\ map root (trees f2) = [split_at_first; split_at_first]
    /\ forestSize f2 = 1%nat
    /\ sum_pathLength f2 0 = DFin 2
    /\ average_pathLength f2 0 = DFin 2
    /\ Ddiv (sum_pathLength f2 0) (D_of_nat (List.length (trees f2)))
       = DFin 1
    /\ anomalyScore f2 0 <> anomalyScore_mean f2 0.
Proof.
  eexists. eexists.
  split; [vm_compute; reflexivity |].
  split; [vm_compute; reflexivity |].
  split; [reflexivity |].
  split; [reflexivity |].
  assert (Esum : forall f : IsolationForest LCG.urbg,
            map root (trees f) = [split_at_first; split_at_first] ->
            n_num_attrs f = 1%nat -> data f = two_obs ->
            sum_pathLength f 0 = DFin 2).
  { intros f Ht Hn Hd. unfold sum_pathLength.
    destruct (trees f) as [| [t1] [| [t2] [| ? ?]]]; try discriminate Ht.
    injection Ht as -> ->.
    cbn [fold_left root split_at_first pathLength].
    rewrite Hn, Hd. cbn. f_equal. lra. }
  match goal with
  | |- sum_pathLength ?f 0 = _ /\ _ =>
      pose proof (Esum f eq_refl eq_refl eq_refl) as E
  end.
  split; [exact E |].
  unfold anomalyScore, anomalyScore_mean, average_pathLength. cbv zeta.
  rewrite E. cbn [trees List.length app treeSize forestSize].
  unfold D_of_nat.
  rewrite averagePathLength_finite by lia.
  pose proof (averagePathLength_R_pos (n := 2) ltac:(lia)) as Hc.
  set (c := averagePathLength_R (INR 2)) in *.
  rewrite !Ddiv_fin by (simpl; lra).
  split; [f_equal; simpl; lra |].
  split; [f_equal; simpl; lra |].
  cbn [Dneg]. rewrite !Ddiv_fin by lra. cbn [Dpow2].
  intros H. injection H as H. apply Rpower_2_inj in H.
  assert (Hs : - (2 / INR 1) * / c = - (2 / INR 2) * / c)
    by (unfold Rdiv in H; exact H).
  apply Rmult_eq_reg_r in Hs.
  - simpl in Hs. lra.
  - apply Rinv_neq_0_compat. lra.
Qed.

(** ** Missing values *)

Lemma SFcompare_refl_not_nan s :
  SFeqb s s = false -> s = S754_nan.
Proof.
  unfold SFeqb. destruct s as [z | i | | sg m e]; cbn [SFcompare];
    try reflexivity; try discriminate.
  - destruct i; discriminate.
  - rewrite Z.compare_refl.
    assert (E : Pos.compare_cont Eq m m = Eq) by apply Pos.compare_refl.
    rewrite E. destruct sg; discriminate.
Qed.

Lemma isnan_Prim2SF x : isnan x = true -> Prim2SF x = S754_nan.
Proof.
  unfold isnan, is_nan. rewrite eqb_spec. intros H.
  apply SFcompare_refl_not_nan.
  now destruct (SFeqb (Prim2SF x) (Prim2SF x)).
Qed.

(** [x <= y] is false when [x] is NaN, and when [y] is. *)
Lemma fle_nan_l x y : isnan x = true -> fle x y = false.
Proof.
  intros H. unfold fle. rewrite leb_spec, (isnan_Prim2SF _ H).
  reflexivity.
Qed.

Lemma fle_nan_r x y : isnan y = true -> fle x y = false.
Proof.
  intros H. unfold fle. rewrite leb_spec, (isnan_Prim2SF _ H).
  unfold SFleb. now destruct (Prim2SF x).
Qed.

(** [growTree] pushes a missing value left, whatever the pivot. *)
Lemma num_goes_left_missing val obsVal :
  isnan obsVal = true -> num_goes_left val obsVal = true.
Proof.
  intros H. unfold num_goes_left. rewrite H. now destruct (isnan val).
Qed.

(** When neither value is missing the two tests agree. *)
Lemma num_goes_left_present val obsVal :
  isnan val = false -> isnan obsVal = false ->
  num_goes_left val obsVal = fle obsVal val.
Proof.
  intros Hv Ho. unfold num_goes_left. rewrite Hv, Ho. cbn [orb].
  now destruct (fle obsVal val).
Qed.

(** C1.  At an internal numeric node, an observation whose value on
    the split attribute is missing was pushed to the left list by
    [growTree] (for a missing pivot as for any other), but
    [pathLength] compares with [val <= splitValue], which is false for
    a NaN, and descends to the right child. *)
Theorem pathLength_missing_value_goes_right (G : URBG)
    (f : IsolationForest G) (ob : nat)
    (a : nat) (v : DataType) (c : option CharDataType) (k : nat)
    (l r : Node) (length : Z) :
  (a < n_num_attrs f)%nat ->
  isnan (num_at (data f) a ob) = true ->
  num_goes_left v (num_at (data f) a ob) = true
  /\ pathLength f ob (InNode a v c k l r) length
     = pathLength f ob r (length + 1).
Proof.
  intros Ha Hnan. split.
  - now apply num_goes_left_missing.
  - cbn [pathLength].
    apply Nat.ltb_lt in Ha. rewrite Ha.
    now rewrite fle_nan_l.
Qed.

Lemma pathLength_missing_value_goes_right_witness :
  let f := forest_of nan_obs 2 1 0 in
  ((0 < n_num_attrs f)%nat /\ isnan (num_at (data f) 0 0) = true)
  /\ (num_goes_left 1%float (num_at (data f) 0 0) = true
      /\ pathLength f 0 nan_tree 0 = pathLength f 0 (ExNode 0) (0 + 1)).
Proof.
  cbv zeta. split; [split; [simpl; lia | reflexivity] |].
  apply (@pathLength_missing_value_goes_right LCG.urbg
           (forest_of nan_obs 2 1 0) 0 0 1%float None 2
           (ExNode 2) (ExNode 0) 0%Z);
    [simpl; lia | reflexivity].
Defined.

(** The same on the whole run: observation 0 (missing) and
    observation 1 are both in the left list of the root, whose left
    leaf holds 2 observations; [pathLength] of observation 0 ends in
    the empty right leaf and returns 1. *)
Lemma pathLength_nan_example :
  exists f',
    growForest (forest_of nan_obs 2 1 0) = Some f'
    /\ map root (trees f') = [nan_tree]
    /\ split_num nan_obs 0 1%float [0%nat; 1%nat]
       = ([0%nat; 1%nat], [])
    /\ pathLength f' 0 nan_tree 0 = DFin 1
    /\ pathLength f' 0 (ExNode 2) 1 = Dadd (DFin 1) (averagePathLength 2).
Proof.
  eexists. split; [vm_compute; reflexivity |].
  split; [reflexivity |]. split; [reflexivity |].
  split; reflexivity.
Qed.

(** ** Further properties of the specification *)

Lemma Rpower_2_nonpos x : x <= 0 -> 0 < Rpower 2 x <= 1.
Proof.
  intros Hx. unfold Rpower. split; [apply exp_pos |].
  pose proof ln_lt_2 as Hln.
  destruct (Req_dec x 0) as [-> | Hne].
  - rewrite Rmult_0_l, exp_0. lra.
  - rewrite <- exp_0. left. apply exp_increasing.
    assert (0 < - x * ln 2) by (apply Rmult_lt_0_compat; lra). lra.
Qed.

(** X1.  With at least one tree counted and [treeSize >= 1], the
    score is a finite value between 0 and 1, both included: it is
    neither NaN nor infinite, never negative and never above 1.  (It
    is 2 to a power that is not positive; on doubles that power can
    underflow to 0.) *)
Theorem anomalyScore_between_0_and_1 (G : URBG) (f : IsolationForest G)
    (ob : nat) :
  (1 <= treeSize f)%nat -> forestSize f <> 0%nat ->
  exists r, anomalyScore f ob = DFin r /\ 0 <= r <= 1.
Proof.
  intros Hts Hfs.
  destruct (Nat.eq_dec (treeSize f) 1) as [E1 | E1].
  { exists 1. split; [now apply anomalyScore_infinite_divisor | lra]. }
  unfold anomalyScore. cbv zeta.
  destruct (average_pathLength_finite f ob Hfs) as (a & E & Ha).
  rewrite E, averagePathLength_finite by lia.
  pose proof (averagePathLength_R_pos (n := treeSize f) ltac:(lia)) as Hc.
  cbn [Dneg]. rewrite Ddiv_fin by lra. cbn [Dpow2].
  eexists. split; [reflexivity |].
  assert (Hx : - a / averagePathLength_R (INR (treeSize f)) <= 0).
  { unfold Rdiv.
    assert (0 <= a * / averagePathLength_R (INR (treeSize f))).
    { apply Rmult_le_pos; [exact Ha |].
      apply Rlt_le, Rinv_0_lt_compat, Hc. }
    lra. }
  destruct (Rpower_2_nonpos Hx). lra.
Qed.

Lemma anomalyScore_between_0_and_1_witness :
  exists f',
    growForest (forest_of two_obs 2 1 2) = Some f'
    /\ exists r, anomalyScore f' 0 = DFin r /\ 0 <= r <= 1.
Proof.
  eexists. split; [vm_compute; reflexivity |].
  apply anomalyScore_between_0_and_1; [simpl; lia | simpl; lia].
Defined.

(** X2.  A tree grown from a sample of one index is a single leaf of size
    1, whatever the height limit. *)
Theorem growTree_singleton_is_leaf (G : URBG) (f : IsolationForest G)
    (i : nat) (g : engine G) :
  growTree f [i] g = Some (ExNode 1, g).
Proof.
  unfold growTree. rewrite growTree_fuel_leaf; [reflexivity |].
  left. simpl. lia.
Qed.

(** X3.  [averagePathLength(2)] is [2 * gamma - 1], about 0.1544. *)
Theorem averagePathLength_2 :
  averagePathLength 2 = DFin (2 * EULER_GAMMA - 1)
  /\ 1543 / 10000 < 2 * EULER_GAMMA - 1 < 1545 / 10000.
Proof.
  split.
  - rewrite averagePathLength_finite by lia. f_equal.
    unfold averagePathLength_R. simpl INR.
    replace (1 + 1 - 1) with 1 by ring. rewrite ln_1. field.
  - unfold EULER_GAMMA. lra.
Qed.

(** X4.  In [growForest] every tree is grown from indices of observations,
    none taken twice: the sampling is without replacement. *)
Theorem growForest_samples_without_replacement (G : URBG)
    (nobs tSize : nat) (g : engine G) :
  let sample := fst (std_sample G (iota nobs) tSize g) in
  List.length sample = Nat.min tSize nobs
  /\ NoDup sample
  /\ forall x, In x sample -> (x < nobs)%nat.
Proof.
  cbv zeta. split; [| apply std_sample_iota_NoDup].
  rewrite std_sample_length. unfold iota. now rewrite length_seq.
Qed.

(** ** The shape of grown trees *)

(** A value that is not NaN is below or equal to itself. *)
Lemma fle_refl x : isnan x = false -> fle x x = true.
Proof.
  unfold isnan, is_nan, fle. rewrite eqb_spec, leb_spec.
  unfold SFeqb, SFleb.
  destruct (SFcompare (Prim2SF x) (Prim2SF x)) as [[| |] |];
    simpl; congruence.
Qed.

Lemma strcmp_refl a : strcmp a a = 0%Z.
Proof.
  induction a as [| c a IH]; cbn [strcmp]; [reflexivity |].
  rewrite Ascii.eqb_refl. now destruct (Ascii.eqb c NUL).
Qed.

(** The pivot itself is pushed left, in both loops. *)
Lemma num_goes_left_pivot val : num_goes_left val val = true.
Proof.
  unfold num_goes_left. destruct (isnan val) eqn:E; [reflexivity |].
  now rewrite (fle_refl _ E).
Qed.

Lemma char_goes_left_pivot val : char_goes_left val val = true.
Proof.
  unfold char_goes_left. cbv zeta.
  rewrite Nat.ltb_irrefl, strcmp_refl. reflexivity.
Qed.

Lemma leaves_le_mono m m' node :
  (m <= m')%nat -> leaves_le m node -> leaves_le m' node.
Proof.
  intros Hm. induction node as [k | a v c k l IHl r IHr];
    cbn [leaves_le]; [lia | tauto].
Qed.

Section GrownShape.

Variable G : URBG.
Variable f : IsolationForest G.

(** The drawn pivot position is a position of the sample. *)
Lemma pivot_in_sample sample (g1 : engine G) k g2 :
  (1 < List.length sample)%nat ->
  uniform_int G 0 (N.of_nat (List.length sample - 1)) g1 = (k, g2) ->
  In (nth (N.to_nat k) sample 0%nat) sample.
Proof.
  intros Hn Hk.
  pose proof (@uniform_int_range G 0%N
                (N.of_nat (List.length sample - 1)) g1 ltac:(lia)) as Hr.
  rewrite Hk in Hr. cbn [fst] in Hr.
  apply nth_In. lia.
Qed.

Lemma Grown_sizes sample height g t g' :
  Grown f sample height g t g' ->
  sizes_add_up t /\ leaf_total t = List.length sample.
Proof.
  induction 1 as [sample height g Hstop
                 | sample height g attrN g1 k g2 val lobs robs l g3 r g4
                     Hn Hh Ha Hk Hattr Hval Hs HL [IHL1 IHL2] HR [IHR1 IHR2]
                 | sample height g attrN g1 k g2 val lobs robs l g3 r g4
                     Hn Hh Ha Hk Hattr Hval Hs HL [IHL1 IHL2] HR [IHR1 IHR2]];
    cbn [sizes_add_up leaf_total]; [split; [exact I | reflexivity] | |];
    apply partition_length in Hs;
    rewrite (Grown_root_nObs HL), (Grown_root_nObs HR);
    repeat split; try assumption; lia.
Qed.

Lemma Grown_left_nonempty sample height g t g' :
  Grown f sample height g t g' -> left_nonempty t.
Proof.
  induction 1 as [sample height g Hstop
                 | sample height g attrN g1 k g2 val lobs robs l g3 r g4
                     Hn Hh Ha Hk Hattr Hval Hs HL IHL HR IHR
                 | sample height g attrN g1 k g2 val lobs robs l g3 r g4
                     Hn Hh Ha Hk Hattr Hval Hs HL IHL HR IHR];
    cbn [left_nonempty]; [exact I | |];
    (split; [| split; assumption]);
    rewrite (Grown_root_nObs HL);
    pose proof (pivot_in_sample sample g1 Hn Hk) as Hin.
  - assert (Hl : In (nth (N.to_nat k) sample 0%nat) lobs).
    { pose proof (partition_In
                    (fun i => num_goes_left val
                                (num_at (data f) (N.to_nat attrN) i))
                    sample (nth (N.to_nat k) sample 0%nat)) as [HP _].
      unfold split_num in Hs. rewrite Hs in HP. cbn [fst] in HP.
      apply HP. split; [exact Hin |]. rewrite <- Hval.
      apply num_goes_left_pivot. }
    destruct lobs; [contradiction | simpl; lia].
  - assert (Hl : In (nth (N.to_nat k) sample 0%nat) lobs).
    { pose proof (partition_In
                    (fun i => char_goes_left val
                                (char_at (data f)
                                   (N.to_nat attrN - n_num_attrs f) i))
                    sample (nth (N.to_nat k) sample 0%nat)) as [HP _].
      unfold split_char in Hs. rewrite Hs in HP. cbn [fst] in HP.
      apply HP. split; [exact Hin |]. rewrite <- Hval.
      apply char_goes_left_pivot. }
    destruct lobs; [contradiction | simpl; lia].
Qed.

Lemma Grown_leaves_le sample height g t g' :
  Grown f sample height g t g' -> leaves_le (List.length sample) t.
Proof.
  induction 1 as [sample height g Hstop
                 | sample height g attrN g1 k g2 val lobs robs l g3 r g4
                     Hn Hh Ha Hk Hattr Hval Hs HL IHL HR IHR
                 | sample height g attrN g1 k g2 val lobs robs l g3 r g4
                     Hn Hh Ha Hk Hattr Hval Hs HL IHL HR IHR];
    cbn [leaves_le]; [lia | |];
    apply partition_length in Hs;
    (split; [apply leaves_le_mono with (2 := IHL)
            | apply leaves_le_mono with (2 := IHR)]); lia.
Qed.

Lemma Grown_attrs_below sample height g t g' :
  uniformDist f = (0%N, attr_upper (n_num_attrs f) (n_char_attrs f)) ->
  (1 <= n_num_attrs f + n_char_attrs f)%nat ->
  Grown f sample height g t g' ->
  attrs_below (n_num_attrs f + n_char_attrs f) t.
Proof.
  intros Hu Hpos.
  assert (Hdraw : forall (g0 : engine G) attrN g1,
            uniform_int G (fst (uniformDist f)) (snd (uniformDist f)) g0
            = (attrN, g1) ->
            (N.to_nat attrN < n_num_attrs f + n_char_attrs f)%nat).
  { intros g0 attrN g1 E. rewrite Hu in E. cbn [fst snd] in E.
    pose proof (@uniform_int_range G 0%N
                  (attr_upper (n_num_attrs f) (n_char_attrs f)) g0
                  ltac:(lia)) as Hr.
    rewrite E in Hr. cbn [fst] in Hr. unfold attr_upper in Hr.
    destruct (Nat.eqb_spec (n_num_attrs f + n_char_attrs f) 0); lia. }
  induction 1 as [sample height g Hstop
                 | sample height g attrN g1 k g2 val lobs robs l g3 r g4
                     Hn Hh Ha Hk Hattr Hval Hs HL IHL HR IHR
                 | sample height g attrN g1 k g2 val lobs robs l g3 r g4
                     Hn Hh Ha Hk Hattr Hval Hs HL IHL HR IHR];
    cbn [attrs_below]; [exact I | |];
    repeat split; try assumption; eapply Hdraw; eassumption.
Qed.

End GrownShape.

(** ** Routing: [pathLength] against [growTree] *)

Lemma count_occ_all_nil (A : Type) (s : list A) :
  count_occ turns_eq_dec (map (fun _ => @nil bool) s) []
  = List.length s.
Proof.
  induction s as [| x s IH]; simpl; [reflexivity |].
  destruct (turns_eq_dec [] []); [now rewrite IH | contradiction].
Qed.

(** Counting the walks that start with a given turn is counting, among
    the observations that take this turn, the walks that continue as
    required. *)
Lemma count_occ_turn (A : Type) (q : A -> bool) (r1 r2 : A -> list bool)
    (s : list A) (p : list bool) :
  count_occ turns_eq_dec
    (map (fun i => if q i then true :: r1 i else false :: r2 i) s)
    (true :: p)
  = count_occ turns_eq_dec (map r1 (filter q s)) p
  /\ count_occ turns_eq_dec
       (map (fun i => if q i then true :: r1 i else false :: r2 i) s)
       (false :: p)
     = count_occ turns_eq_dec
         (map r2 (filter (fun i => negb (q i)) s)) p.
Proof.
  induction s as [| x s [IH1 IH2]]; [split; reflexivity |].
  cbn [map filter]. destruct (q x); cbn [negb map].
  - split.
    + destruct (turns_eq_dec (r1 x) p) as [E | N].
      * rewrite !count_occ_cons_eq by congruence. now rewrite IH1.
      * rewrite !count_occ_cons_neq by congruence. exact IH1.
    + rewrite count_occ_cons_neq by congruence. exact IH2.
  - split.
    + rewrite count_occ_cons_neq by congruence. exact IH1.
    + destruct (turns_eq_dec (r2 x) p) as [E | N].
      * rewrite !count_occ_cons_eq by congruence. now rewrite IH2.
      * rewrite !count_occ_cons_neq by congruence. exact IH2.
Qed.

Section Routing.

Variable G : URBG.
Variable f : IsolationForest G.

(** [pathLength] returns what the leaf at the end of the walk gives,
    its length being the number of turns taken. *)
Lemma pathLength_route ob node :
  forall length,
    exists n,
      leaf_at node (route f ob node) = Some (ExNode n)
      /\ pathLength f ob node length
         = pathLength f ob (ExNode n)
             (length + Z.of_nat (List.length (route f ob node))).
Proof.
  induction node as [k | a v c k l IHl r IHr]; intros len.
  - exists k. split; [reflexivity |]. cbn [route List.length].
    now rewrite Z.add_0_r.
  - assert (HL : exists n,
               leaf_at (InNode a v c k l r) (true :: route f ob l)
               = Some (ExNode n)
               /\ pathLength f ob l (len + 1)
                  = pathLength f ob (ExNode n)
                      (len + Z.of_nat
                               (List.length (true :: route f ob l)))).
    { destruct (IHl (len + 1)%Z) as (n & E1 & E2). exists n.
      split; [exact E1 |]. rewrite E2. f_equal. cbn [List.length]. lia. }
    assert (HR : exists n,
               leaf_at (InNode a v c k l r) (false :: route f ob r)
               = Some (ExNode n)
               /\ pathLength f ob r (len + 1)
                  = pathLength f ob (ExNode n)
                      (len + Z.of_nat
                               (List.length (false :: route f ob r)))).
    { destruct (IHr (len + 1)%Z) as (n & E1 & E2). exists n.
      split; [exact E1 |]. rewrite E2. f_equal. cbn [List.length]. lia. }
    cbn [route pathLength]. cbv zeta.
    destruct (a <? n_num_attrs f)%nat.
    + destruct (fle _ v); assumption.
    + destruct (_ <? _)%nat; [assumption |].
      destruct (_ <? _)%nat; [assumption |].
      destruct (_ <=? _)%Z; assumption.
Qed.

(** On a text node the walk turns as [growTree] split. *)
Lemma route_text a v val k l r ob :
  (n_num_attrs f <= a)%nat ->
  route f ob (InNode a v (Some val) k l r)
  = if char_goes_left val (char_at (data f) (a - n_num_attrs f) ob)
    then true :: route f ob l
    else false :: route f ob r.
Proof.
  intros Ha. cbn [route c_str]. cbv zeta.
  replace (a <? n_num_attrs f)%nat with false
    by (symmetry; now apply Nat.ltb_ge).
  unfold char_goes_left. cbv zeta.
  destruct (_ <? _)%nat; [reflexivity |].
  destruct (_ <? _)%nat; [reflexivity |].
  now destruct (_ <=? _)%Z.
Qed.

(** On a numeric node it turns on [val <= splitValue] alone. *)
Lemma route_num a v c k l r ob :
  (a < n_num_attrs f)%nat ->
  route f ob (InNode a v c k l r)
  = if fle (num_at (data f) a ob) v
    then true :: route f ob l
    else false :: route f ob r.
Proof.
  intros Ha. cbn [route]. cbv zeta.
  replace (a <? n_num_attrs f)%nat with true
    by (symmetry; now apply Nat.ltb_lt).
  reflexivity.
Qed.

Lemma no_missing_incl sample sub :
  (forall i, In i sub -> In i sample) ->
  no_missing f sample -> no_missing f sub.
Proof. intros Hi H i a Hin. apply H. now apply Hi. Qed.

(** When no observation of the sample misses a numeric value, each
    leaf records exactly the number of sample observations whose walk
    ends there. *)
Lemma Grown_route_count sample height g t g' :
  Grown f sample height g t g' ->
  no_missing f sample ->
  forall turns n,
    leaf_at t turns = Some (ExNode n) ->
    count_occ turns_eq_dec (map (fun i => route f i t) sample) turns = n.
Proof.
  induction 1 as [sample height g Hstop
                 | sample height g attrN g1 k g2 val lobs robs l g3 r g4
                     Hn Hh Ha Hk Hattr Hval Hs HL IHL HR IHR
                 | sample height g attrN g1 k g2 val lobs robs l g3 r g4
                     Hn Hh Ha Hk Hattr Hval Hs HL IHL HR IHR];
    intros Hmiss turns n Hleaf.
  - destruct turns; [| discriminate Hleaf].
    injection Hleaf as <-. apply count_occ_all_nil.
  - destruct turns as [| b turns]; [discriminate Hleaf |].
    cbn [leaf_at] in Hleaf.
    unfold split_num in Hs. rewrite partition_as_filter in Hs.
    injection Hs as <- <-.
    assert (Hpiv : isnan val = false).
    { rewrite Hval. apply Hmiss; [| exact Hattr].
      eapply pivot_in_sample; eassumption. }
    assert (Hq : forall i, In i sample ->
              num_goes_left val (num_at (data f) (N.to_nat attrN) i)
              = fle (num_at (data f) (N.to_nat attrN) i) val).
    { intros i Hi. apply num_goes_left_present; [exact Hpiv |].
      now apply Hmiss. }
    rewrite (map_ext _ _ (fun i => route_num val None
                                     (List.length sample) l r i Hattr)).
    destruct (count_occ_turn
                (fun i => fle (num_at (data f) (N.to_nat attrN) i) val)
                (fun i => route f i l) (fun i => route f i r)
                sample turns) as [E1 E2].
    destruct b.
    + rewrite E1, <- (filter_ext_in _ _ _ Hq).
      apply IHL; [| exact Hleaf].
      apply no_missing_incl with (2 := Hmiss).
      intros i Hi. now apply filter_In in Hi.
    + rewrite E2.
      rewrite <- (filter_ext_in
                    (fun i => negb (num_goes_left val
                                 (num_at (data f) (N.to_nat attrN) i)))
                    _ sample)
        by (intros i Hi; now rewrite Hq).
      apply IHR; [| exact Hleaf].
      apply no_missing_incl with (2 := Hmiss).
      intros i Hi. now apply filter_In in Hi.
  - destruct turns as [| b turns]; [discriminate Hleaf |].
    cbn [leaf_at] in Hleaf.
    unfold split_char in Hs. rewrite partition_as_filter in Hs.
    injection Hs as <- <-.
    rewrite (map_ext _ _ (fun i => route_text NAN val
                                     (List.length sample) l r i Hattr)).
    destruct (count_occ_turn
                (fun i => char_goes_left val
                            (char_at (data f)
                               (N.to_nat attrN - n_num_attrs f) i))
                (fun i => route f i l) (fun i => route f i r)
                sample turns) as [E1 E2].
    destruct b.
    + rewrite E1. apply IHL; [| exact Hleaf].
      apply no_missing_incl with (2 := Hmiss).
      intros i Hi. now apply filter_In in Hi.
    + rewrite E2. apply IHR; [| exact Hleaf].
      apply no_missing_incl with (2 := Hmiss).
      intros i Hi. now apply filter_In in Hi.
Qed.

End Routing.

(** ** The trees a forest owns *)

Section OwnedTrees.

Variable G : URBG.

(** Appending a tree changes no run of [growTree]. *)
Lemma Grown_push_tree (f : IsolationForest G) t0 g0 sample height g t g' :
  Grown (push_tree f t0 g0) sample height g t g' ->
  Grown f sample height g t g'.
Proof.
  intros H.
  assert (E : growTree_fuel (push_tree f t0 g0)
                (Z.to_nat (maxTreeHeight (push_tree f t0 g0) - height))
                sample height g = Some (t, g'))
    by (apply (Grown_growTree_fuel H); lia).
  rewrite growTree_fuel_push_tree in E.
  now apply growTree_fuel_Grown in E.
Qed.

Lemma grown_from_push_tree (f : IsolationForest G) t0 g0 obs size t :
  grown_from (push_tree f t0 g0) obs size t -> grown_from f obs size t.
Proof.
  intros (sample & g & g' & H & Hs & Hi).
  exists sample, g, g'. split; [| split; assumption].
  now apply Grown_push_tree in H.
Qed.

Lemma Forall_grown_from_push_tree (f : IsolationForest G) t0 g0 obs size l :
  Forall (grown_from (push_tree f t0 g0) obs size) l ->
  Forall (grown_from f obs size) l.
Proof.
  intros H. eapply Forall_impl; [| exact H].
  intros t. apply grown_from_push_tree.
Qed.

Lemma same_setup_refl (f : IsolationForest G) : same_setup f f.
Proof. repeat split. Qed.

Lemma same_setup_push_tree (f f' : IsolationForest G) t g :
  same_setup (push_tree f t g) f' -> same_setup f f'.
Proof. intros H. exact H. Qed.

(** [growForest]: the trees appended are grown from samples of
    [min(treeSize, size of obs)] indices of [obs]. *)
Lemma growForest_loop_grown iterations :
  forall (f : IsolationForest G) obs,
  exists f' new,
    growForest_loop f obs iterations = Some f'
    /\ trees f' = trees f ++ new
    /\ List.length new = iterations
    /\ Forall (grown_from f obs
                 (fun n => n = Nat.min (treeSize f) (List.length obs))) new
    /\ same_setup f f'.
Proof.
  induction iterations as [| n IH]; intros f obs; cbn [growForest_loop].
  - exists f, []. rewrite app_nil_r.
    repeat split; constructor.
  - pose proof (@std_sample_length G obs (treeSize f) (randomGen f)) as Hlen.
    pose proof (fun x => @sample_loop_incl G obs (List.length obs)
                  (Nat.min (treeSize f) (List.length obs))
                  (randomGen f) x) as Hincl.
    unfold std_sample in *.
    destruct (sample_loop G obs (List.length obs)
                (Nat.min (treeSize f) (List.length obs)) (randomGen f))
      as [sample g1].
    cbn [fst] in Hlen, Hincl.
    destruct (growTree_total f sample g1) as (rt & g2 & E).
    rewrite E. unfold growTree in E. apply growTree_fuel_Grown in E.
    destruct (IH (push_tree f (mkTree rt) g2) obs)
      as (f' & new & E' & Ht & Hl & Hall & Hsame).
    exists f', (mkTree rt :: new). rewrite E'.
    cbn [push_tree trees treeSize] in Ht, Hall.
    rewrite Ht, <- app_assoc.
    split; [reflexivity |]. split; [reflexivity |].
    split; [cbn [List.length]; lia |].
    split; [| now apply same_setup_push_tree in Hsame].
    constructor.
    + exists sample, g1, g2. cbn [root]. auto.
    + now apply Forall_grown_from_push_tree in Hall.
Qed.

(** [grow]: the trees appended are grown from samples of at least
    [min(treeSize, size of obs)] indices of [obs]. *)
Lemma grow_loop_grown iterations :
  forall (f : IsolationForest G) obs sample0,
    (forall i, In i sample0 -> In i obs) ->
  exists f' new,
    grow_loop f obs sample0 iterations = Some f'
    /\ trees f' = trees f ++ new
    /\ List.length new = iterations
    /\ Forall (grown_from f obs
                 (fun n => (Nat.min (treeSize f) (List.length obs) <= n)%nat))
              new
    /\ same_setup f f'.
Proof.
  induction iterations as [| n IH]; intros f obs sample0 Hin0;
    cbn [grow_loop].
  - exists f, []. rewrite app_nil_r.
    repeat split; constructor.
  - pose proof (@std_sample_length G obs (treeSize f) (randomGen f)) as Hlen.
    pose proof (fun x => @sample_loop_incl G obs (List.length obs)
                  (Nat.min (treeSize f) (List.length obs))
                  (randomGen f) x) as Hincl.
    unfold std_sample in *.
    destruct (sample_loop G obs (List.length obs)
                (Nat.min (treeSize f) (List.length obs)) (randomGen f))
      as [out g1].
    cbn [fst] in Hlen, Hincl. cbv zeta.
    assert (Hin : forall i, In i (sample0 ++ out) -> In i obs).
    { intros i Hi. apply in_app_or in Hi. destruct Hi; auto. }
    destruct (growTree_total f (sample0 ++ out) g1) as (rt & g2 & E).
    rewrite E. unfold growTree in E. apply growTree_fuel_Grown in E.
    destruct (IH (push_tree f (mkTree rt) g2) obs (sample0 ++ out) Hin)
      as (f' & new & E' & Ht & Hl & Hall & Hsame).
    exists f', (mkTree rt :: new). rewrite E'.
    cbn [push_tree trees treeSize] in Ht, Hall.
    rewrite Ht, <- app_assoc.
    split; [reflexivity |]. split; [reflexivity |].
    split; [cbn [List.length]; lia |].
    split; [| now apply same_setup_push_tree in Hsame].
    constructor.
    + exists (sample0 ++ out), g1, g2. cbn [root].
      split; [exact E |]. split; [| exact Hin].
      rewrite length_app. lia.
    + now apply Forall_grown_from_push_tree in Hall.
Qed.

End OwnedTrees.

(** ** Bounds on path lengths and scores *)

Lemma averagePathLength_R_le n m :
  (2 <= n)%nat -> (n <= m)%nat ->
  averagePathLength_R (INR n) <= averagePathLength_R (INR m).
Proof.
  intros Hn Hm. destruct (Nat.eq_dec n m) as [-> | Hne]; [lra |].
  left. apply averagePathLength_R_increasing; lia.
Qed.

Lemma node_depth_nonneg t : (0 <= node_depth t)%Z.
Proof. induction t; cbn [node_depth]; lia. Qed.

(** In a tree whose leaves record at most [m >= 2] observations, a path
    length exceeds the starting length by at most the depth of the tree
    plus [averagePathLength(m)]. *)
Lemma pathLength_upper (G : URBG) (f : IsolationForest G) ob m t :
  (2 <= m)%nat -> leaves_le m t ->
  forall length,
    exists r,
      pathLength f ob t length = DFin r
      /\ IZR length <= r
         <= IZR length + IZR (node_depth t) + averagePathLength_R (INR m).
Proof.
  intros Hm.
  pose proof (averagePathLength_R_pos Hm) as Hc.
  induction t as [k | a v c k l IHl r IHr]; cbn [leaves_le]; intros Hle len.
  - cbn [pathLength node_depth].
    destruct (Nat.leb_spec k 1) as [Hk | Hk].
    + exists (IZR len). split; [reflexivity | lra].
    + rewrite averagePathLength_finite by lia.
      pose proof (averagePathLength_R_pos (n := k) ltac:(lia)).
      pose proof (@averagePathLength_R_le k m ltac:(lia) Hle).
      unfold D_of_Z. cbn [Dadd]. eexists. split; [reflexivity | lra].
  - destruct Hle as [Hl Hr].
    assert (HL : exists x, pathLength f ob l (len + 1) = DFin x
               /\ IZR len <= x
                  <= IZR len + IZR (node_depth (InNode a v c k l r))
                     + averagePathLength_R (INR m)).
    { destruct (IHl Hl (len + 1)%Z) as (x & E & Hx).
      exists x. split; [exact E |].
      cbn [node_depth]. rewrite plus_IZR in *.
      pose proof (IZR_le _ _ (Z.le_max_l (node_depth l) (node_depth r))).
      lra. }
    assert (HR : exists x, pathLength f ob r (len + 1) = DFin x
               /\ IZR len <= x
                  <= IZR len + IZR (node_depth (InNode a v c k l r))
                     + averagePathLength_R (INR m)).
    { destruct (IHr Hr (len + 1)%Z) as (x & E & Hx).
      exists x. split; [exact E |].
      cbn [node_depth]. rewrite plus_IZR in *.
      pose proof (IZR_le _ _ (Z.le_max_r (node_depth l) (node_depth r))).
      lra. }
    cbn [pathLength].
    destruct (a <? n_num_attrs f)%nat.
    + destruct (fle _ v); assumption.
    + destruct (_ <? _)%nat; [assumption |].
      destruct (_ <? _)%nat; [assumption |].
      destruct (_ <=? _)%Z; assumption.
Qed.

(** The sum of line 128 over trees of depth at most [h] whose leaves
    record at most [m] observations. *)
Lemma sum_pathLength_upper (G : URBG) (f : IsolationForest G) ob m h :
  (2 <= m)%nat ->
  Forall (fun t => (node_depth (root t) <= h)%Z /\ leaves_le m (root t))
         (trees f) ->
  exists s,
    sum_pathLength f ob = DFin s
    /\ 0 <= s <= INR (List.length (trees f))
                 * (IZR h + averagePathLength_R (INR m)).
Proof.
  intros Hm Hall. unfold sum_pathLength.
  pose proof (averagePathLength_R_pos Hm) as Hc.
  assert (H : forall ts acc,
            Forall (fun t => (node_depth (root t) <= h)%Z
                             /\ leaves_le m (root t)) ts ->
            exists s,
              fold_left
                (fun avg tree => Dadd avg (pathLength f ob (root tree) 0))
                ts (DFin acc) = DFin s
              /\ acc <= s <= acc + INR (List.length ts)
                                  * (IZR h + averagePathLength_R (INR m))).
  { induction ts as [| t ts IH]; intros acc Hts; cbn [fold_left].
    - exists acc. split; [reflexivity |]. simpl. lra.
    - inversion Hts as [| ? ? [Hd Hl] Hts']; subst.
      destruct (@pathLength_upper G f ob m (root t) Hm Hl 0%Z)
        as (x & E & Hx).
      rewrite E. cbn [Dadd].
      destruct (IH (acc + x) Hts') as (s & Es & Hs).
      exists s. split; [exact Es |].
      apply IZR_le in Hd. change (List.length (t :: ts)) with
        (S (List.length ts)). rewrite S_INR. simpl in Hx. lra. }
  destruct (H (trees f) 0 Hall) as (s & E & Hs).
  exists s. split; [exact E | lra].
Qed.

(** The score written out, when every operation is on finite values. *)
Lemma anomalyScore_value (G : URBG) (f : IsolationForest G) ob s :
  (2 <= treeSize f)%nat -> forestSize f <> 0%nat ->
  sum_pathLength f ob = DFin s ->
  anomalyScore f ob
  = DFin (Rpower 2 (- (s / INR (forestSize f))
                    / averagePathLength_R (INR (treeSize f)))).
Proof.
  intros Hts Hfs Hs. unfold anomalyScore, average_pathLength, D_of_nat.
  cbv zeta.
  assert (0 < INR (forestSize f)) by (apply lt_0_INR; lia).
  pose proof (averagePathLength_R_pos Hts).
  rewrite Hs, Ddiv_fin by lra. cbn [Dneg].
  rewrite averagePathLength_finite, Ddiv_fin by (lia || lra).
  reflexivity.
Qed.

(** ** More properties of the code *)

(** X5.  [growTree] returns a tree whose root records the size of the
    sample, in which the sizes recorded at the two children of every
    internal node add up to the size recorded at the node, and whose
    leaves together record the size of the sample: no observation is
    lost or counted twice by a split. *)
Theorem growTree_sizes_add_up (G : URBG) (f : IsolationForest G)
    (sample : list nat) (g : engine G) :
  exists t g',
    growTree f sample g = Some (t, g')
    /\ node_nObs t = List.length sample
    /\ sizes_add_up t
    /\ leaf_total t = List.length sample.
Proof.
  destruct (growTree_total f sample g) as (t & g' & E).
  exists t, g'. split; [exact E |].
  unfold growTree in E. apply growTree_fuel_Grown in E.
  destruct (Grown_sizes E) as [H1 H2].
  split; [exact (Grown_root_nObs E) | split; assumption].
Qed.

(** X6.  In the tree [growTree] returns, the left child of every
    internal node records at least one observation: the observation
    the pivot was read from is always pushed left, so only the right
    child can be empty. *)
Theorem growTree_left_child_nonempty (G : URBG) (f : IsolationForest G)
    (sample : list nat) (g : engine G) :
  exists t g',
    growTree f sample g = Some (t, g') /\ left_nonempty t.
Proof.
  destruct (growTree_total f sample g) as (t & g' & E).
  exists t, g'. split; [exact E |].
  unfold growTree in E. apply growTree_fuel_Grown in E.
  exact (Grown_left_nonempty E).
Qed.

(** X7.  In a forest constructed over at least one attribute, every
    split attribute of a tree [growTree] returns is an index below
    [n_num_attrs + n_char_attrs]; a node that splits on a numeric
    attribute carries no pivot text and a node that splits on a text
    attribute carries one. *)
Theorem growTree_split_attributes_in_range (G : URBG) (d : DataSource)
    (tSize fSize seed : nat) (sample : list nat) (g : engine G) :
  (1 <= num_dim0 d + char_dim0 d)%nat ->
  exists t g',
    growTree (IsolationForest_new G d tSize fSize seed) sample g
    = Some (t, g')
    /\ attrs_below (num_dim0 d + char_dim0 d) t
    /\ split_kind_ok (num_dim0 d) t.
Proof.
  intros Hpos.
  destruct (growTree_total (IsolationForest_new G d tSize fSize seed)
              sample g) as (t & g' & E).
  exists t, g'. split; [exact E |].
  unfold growTree in E. apply growTree_fuel_Grown in E. split.
  - apply (Grown_attrs_below (f := IsolationForest_new G d tSize fSize seed))
      with (3 := E); [reflexivity | exact Hpos].
  - exact (Grown_split_kind_ok E).
Qed.

Lemma growTree_split_attributes_in_range_witness :
  (1 <= num_dim0 two_obs + char_dim0 two_obs)%nat
  /\ exists t g',
      growTree (IsolationForest_new LCG.urbg two_obs 2 1 0)
               [0%nat; 1%nat] 5%N
      = Some (t, g')
      /\ attrs_below (num_dim0 two_obs + char_dim0 two_obs) t
      /\ split_kind_ok (num_dim0 two_obs) t.
Proof.
  split; [simpl; lia |].
  apply (@growTree_split_attributes_in_range LCG.urbg two_obs 2 1 0).
  simpl. lia.
Defined.

(** X8.  When no observation of the sample misses a numeric value, the
    walk of [pathLength] reproduces the splits of [growTree]: every
    leaf of the tree records exactly the number of sample observations
    whose walk ends at that leaf; the walk of a sample observation ends
    at a leaf that records at least one observation, and [pathLength]
    returns what that leaf gives at the depth walked. *)
Theorem pathLength_walk_matches_growTree (G : URBG)
    (f : IsolationForest G) (sample : list nat) (g : engine G) :
  no_missing f sample ->
  exists t g',
    growTree f sample g = Some (t, g')
    /\ (forall turns n,
          leaf_at t turns = Some (ExNode n) ->
          count_occ turns_eq_dec (map (fun i => route f i t) sample) turns
          = n)
    /\ (forall i, In i sample ->
          exists n,
            leaf_at t (route f i t) = Some (ExNode n)
            /\ (1 <= n)%nat
            /\ pathLength f i t 0
               = pathLength f i (ExNode n)
                   (Z.of_nat (List.length (route f i t)))).
Proof.
  intros Hmiss.
  destruct (growTree_total f sample g) as (t & g' & E).
  exists t, g'. split; [exact E |].
  unfold growTree in E. apply growTree_fuel_Grown in E.
  pose proof (Grown_route_count E Hmiss) as Hcount.
  split; [exact Hcount |].
  intros i Hi.
  destruct (pathLength_route f i t 0) as (n & Hleaf & Hlen).
  exists n. split; [exact Hleaf |]. split; [| exact Hlen].
  rewrite <- (Hcount _ _ Hleaf).
  apply (count_occ_In turns_eq_dec).
  apply (in_map (fun j => route f j t)), Hi.
Qed.

Lemma two_obs_no_missing :
  no_missing (forest_of two_obs 2 1 0) [0%nat; 1%nat].
Proof.
  intros i a _ _. cbn. now destruct (i =? 0)%nat.
Qed.

Lemma pathLength_walk_matches_growTree_witness :
  let f := forest_of two_obs 2 1 0 in
  no_missing f [0%nat; 1%nat]
  /\ exists t g',
      growTree f [0%nat; 1%nat] (randomGen f) = Some (t, g')
      /\ (forall turns n,
            leaf_at t turns = Some (ExNode n) ->
            count_occ turns_eq_dec
              (map (fun i => route f i t) [0%nat; 1%nat]) turns
            = n)
      /\ (forall i, In i [0%nat; 1%nat] ->
            exists n,
              leaf_at t (route f i t) = Some (ExNode n)
              /\ (1 <= n)%nat
              /\ pathLength f i t 0
                 = pathLength f i (ExNode n)
                     (Z.of_nat (List.length (route f i t)))).
Proof.
  cbv zeta. split; [exact two_obs_no_missing |].
  apply pathLength_walk_matches_growTree. exact two_obs_no_missing.
Defined.

(** X9.  After the constructor and one [growForest()], the forest owns
    exactly [forestSize] trees, so the average [anomalyScore] takes is
    the mean of the path lengths over the owned trees. *)
Theorem anomalyScore_is_mean_after_growForest (G : URBG) (d : DataSource)
    (tSize fSize seed : nat) :
  exists f',
    growForest (IsolationForest_new G d tSize fSize seed) = Some f'
    /\ List.length (trees f') = forestSize f'
    /\ forestSize f' = fSize
    /\ forall ob, anomalyScore f' ob = anomalyScore_mean f' ob.
Proof.
  destruct (growForest_loop_grown fSize
              (IsolationForest_new G d tSize fSize seed)
              (iota (num_dim1 d)))
    as (f' & new & E & Ht & Hl & _ & Hsame).
  destruct Hsame as (_ & _ & Hfs & _).
  cbn [IsolationForest_new trees forestSize app] in *.
  exists f'. split; [exact E |].
  assert (Hn : List.length (trees f') = forestSize f')
    by (rewrite Ht, Hfs; exact Hl).
  split; [exact Hn |]. split; [exact Hfs |].
  intros ob. now apply anomalyScore_mean_when_sizes_agree.
Qed.

(** X11.  In a forest that owns no tree yet, with [treeSize >= 2],
    [forestSize >= 1] and a [maxTreeHeight] between 0 and the least
    [k] with [treeSize <= 2^k] (where the constructor puts it), after
    one [growForest()] every score is a finite value that is at most 1
    and at least 4^-(1 + maxTreeHeight / c), where [c] is the exact
    [averagePathLength(treeSize)]: every path length is at most
    [maxTreeHeight + c], so scores stay away from 0.  (Exact arithmetic
    gives the square root of this bound, which a rounded score can
    miss.) *)
Theorem anomalyScore_bounded_below_after_growForest (G : URBG)
    (f : IsolationForest G) :
  trees f = [] ->
  (2 <= treeSize f)%nat -> (1 <= forestSize f)%nat ->
  (0 <= maxTreeHeight f <= ceil_log2 (treeSize f))%Z ->
  exists f',
    growForest f = Some f'
    /\ forall ob,
         exists r,
           anomalyScore f' ob = DFin r
           /\ Rpower 2 (- 2 * (IZR (maxTreeHeight f)
                               / averagePathLength_R (INR (treeSize f))
                               + 1))
              <= r <= 1.
Proof.
  intros Hempty Hts Hfs [Hh _].
  destruct (growForest_loop_grown (forestSize f) f (iota (nObs f)))
    as (f' & new & E & Ht & Hl & Hall & Hsame).
  destruct Hsame as (_ & Hts' & Hfs' & _).
  rewrite Hempty in Ht. cbn [app] in Ht.
  exists f'. split; [exact E |]. intros ob.
  assert (Hbound : Forall
            (fun t => (node_depth (root t) <= maxTreeHeight f)%Z
                      /\ leaves_le (treeSize f) (root t)) (trees f')).
  { rewrite Ht. eapply Forall_impl; [| exact Hall].
    intros t (sample & g & g' & HG & Hsize & _). split.
    - pose proof (Grown_depth HG) as Hd. lia.
    - apply leaves_le_mono with (2 := Grown_leaves_le HG). lia. }
  destruct (sum_pathLength_upper f' ob Hts Hbound) as (s & Es & Hs).
  assert (Hn : List.length (trees f') = forestSize f)
    by (rewrite Ht; exact Hl).
  rewrite Hn in Hs.
  rewrite (@anomalyScore_value G f' ob s)
    by (rewrite ?Hts', ?Hfs'; (lia || exact Es)).
  rewrite Hts', Hfs'.
  eexists. split; [reflexivity |].
  pose proof (averagePathLength_R_pos Hts) as Hc.
  set (c := averagePathLength_R (INR (treeSize f))) in *.
  set (h := IZR (maxTreeHeight f)) in *.
  assert (Hh0 : 0 <= h) by (apply (IZR_le 0); exact Hh).
  assert (Hpos : 0 < INR (forestSize f)) by (apply lt_0_INR; lia).
  assert (Havg : 0 <= s / INR (forestSize f) <= h + c).
  { split.
    - apply Rmult_le_pos; [lra |]. now apply Rlt_le, Rinv_0_lt_compat.
    - apply Rmult_le_reg_r with (INR (forestSize f)); [exact Hpos |].
      unfold Rdiv. rewrite Rmult_assoc, Rinv_l by lra. lra. }
  assert (Hi : 0 < / c) by now apply Rinv_0_lt_compat.
  assert (Hexp : - 2 * (h / c + 1)
                 <= - (s / INR (forestSize f)) / c <= 0).
  { assert (E1 : - 2 * (h / c + 1) = - (2 * (h + c)) * / c)
      by (field; lra).
    assert (E2 : - (s / INR (forestSize f)) / c
                 = - (s / INR (forestSize f)) * / c) by reflexivity.
    rewrite E1, E2. split.
    - apply Rmult_le_compat_r; lra.
    - assert (0 <= (s / INR (forestSize f)) * / c)
        by (apply Rmult_le_pos; lra).
      lra. }
  split.
  - apply Rle_Rpower; lra.
  - apply Rpower_2_nonpos. lra.
Qed.

Lemma anomalyScore_bounded_below_after_growForest_witness :
  let f := forest_of two_obs 2 3 0 in
  (trees f = [] /\ (2 <= treeSize f)%nat /\ (1 <= forestSize f)%nat
   /\ (0 <= maxTreeHeight f <= ceil_log2 (treeSize f))%Z)
  /\ exists f',
      growForest f = Some f'
      /\ forall ob,
           exists r,
             anomalyScore f' ob = DFin r
             /\ Rpower 2 (- 2 * (IZR (maxTreeHeight f)
                                 / averagePathLength_R (INR (treeSize f))
                                 + 1))
                <= r <= 1.
Proof.
  cbv zeta.
  assert (Ht : trees (forest_of two_obs 2 3 0) = []) by reflexivity.
  assert (Hts : (2 <= treeSize (forest_of two_obs 2 3 0))%nat)
    by (vm_compute; lia).
  assert (Hfs : (1 <= forestSize (forest_of two_obs 2 3 0))%nat)
    by (vm_compute; lia).
  assert (Hh : (0 <= maxTreeHeight (forest_of two_obs 2 3 0)
                <= ceil_log2 (treeSize (forest_of two_obs 2 3 0)))%Z)
    by (vm_compute; split; discriminate).
  split; [split; [exact Ht | split; [exact Hts | split; [exact Hfs | exact Hh]]] |].
  exact (anomalyScore_bounded_below_after_growForest
           (forest_of two_obs 2 3 0) Ht Hts Hfs Hh).
Defined.

(** X12.  Growth only appends: [growForest()] followed by a job
    [grow(jobs)] returns, the trees owned before are still there in the
    same order, followed by [forestSize] new trees and then [jobs] new
    trees, and the configuration (data source, [treeSize],
    [forestSize], seed, [maxTreeHeight], attribute and observation
    counts, attribute distribution) is untouched. *)
Theorem growth_only_appends (G : URBG) (f : IsolationForest G)
    (jobs : nat) :
  exists f1 f2 new1 new2,
    growForest f = Some f1
    /\ grow f1 jobs = Some f2
    /\ trees f1 = trees f ++ new1
    /\ trees f2 = trees f ++ new1 ++ new2
    /\ List.length new1 = forestSize f
    /\ List.length new2 = jobs
    /\ same_setup f f1 /\ same_setup f f2.
Proof.
  destruct (growForest_loop_grown (forestSize f) f (iota (nObs f)))
    as (f1 & new1 & E1 & Ht1 & Hl1 & _ & Hs1).
  destruct (@grow_loop_grown G jobs f1 (iota (nObs f1)) []
              ltac:(intros i [])) as (f2 & new2 & E2 & Ht2 & Hl2 & _ & Hs2).
  exists f1, f2, new1, new2.
  split; [exact E1 |]. split; [exact E2 |]. split; [exact Ht1 |].
  split; [now rewrite Ht2, Ht1, app_assoc |].
  split; [exact Hl1 |]. split; [exact Hl2 |]. split; [exact Hs1 |].
  unfold same_setup in *.
  destruct Hs1 as (A1 & A2 & A3 & A4 & A5 & A6 & A7 & A8 & A9).
  destruct Hs2 as (B1 & B2 & B3 & B4 & B5 & B6 & B7 & B8 & B9).
  repeat split; congruence.
Qed.

(** X13.  In a forest that owns no tree yet and whose [maxTreeHeight]
    is not negative, after [growForest()] and a job [grow(jobs)] the
    forest owns [forestSize + jobs] trees, its [maxTreeHeight] is what
    it was, and every owned tree, those of [grow] included, has no node
    deeper than [maxTreeHeight], records at every internal node the sum
    of the sizes of its two children, has a non-empty left child at
    every internal node, and carries a pivot text at each of its text
    nodes for [pathLength] to read. *)
Theorem owned_trees_are_well_formed (G : URBG) (f : IsolationForest G)
    (jobs : nat) :
  trees f = [] -> (0 <= maxTreeHeight f)%Z ->
  exists f1 f2,
    growForest f = Some f1
    /\ grow f1 jobs = Some f2
    /\ List.length (trees f2) = (forestSize f + jobs)%nat
    /\ maxTreeHeight f2 = maxTreeHeight f
    /\ Forall (fun t =>
                 (node_depth (root t) <= maxTreeHeight f2)%Z
                 /\ sizes_add_up (root t)
                 /\ left_nonempty (root t)
                 /\ split_kind_ok (n_num_attrs f2) (root t))
              (trees f2).
Proof.
  intros Hempty Hh.
  destruct (growForest_loop_grown (forestSize f) f (iota (nObs f)))
    as (f1 & new1 & E1 & Ht1 & Hl1 & Hall1 & Hs1).
  destruct (@grow_loop_grown G jobs f1 (iota (nObs f1)) []
              ltac:(intros i [])) as (f2 & new2 & E2 & Ht2 & Hl2 & Hall2 & Hs2).
  destruct Hs1 as (_ & _ & _ & _ & Hm1 & Hn1 & _).
  destruct Hs2 as (_ & _ & _ & _ & Hm2 & Hn2 & _).
  rewrite Hempty in Ht1. cbn [app] in Ht1.
  exists f1, f2.
  split; [exact E1 |]. split; [exact E2 |].
  split; [rewrite Ht2, Ht1, length_app; lia |].
  split; [congruence |].
  rewrite Ht2, Ht1. apply Forall_app. split.
  - eapply Forall_impl; [| exact Hall1].
    intros t (sample & g & g' & HG & _).
    pose proof (Grown_depth HG) as Hd.
    pose proof (Grown_split_kind_ok HG) as Hk.
    rewrite Hm2, Hm1, Hn2, Hn1.
    split; [lia |]. split; [exact (proj1 (Grown_sizes HG)) |].
    split; [exact (Grown_left_nonempty HG) | exact Hk].
  - eapply Forall_impl; [| exact Hall2].
    intros t (sample & g & g' & HG & _).
    pose proof (Grown_depth HG) as Hd.
    pose proof (Grown_split_kind_ok HG) as Hk.
    rewrite Hm1 in Hd. rewrite Hn1 in Hk.
    rewrite Hm2, Hm1, Hn2, Hn1.
    split; [lia |]. split; [exact (proj1 (Grown_sizes HG)) |].
    split; [exact (Grown_left_nonempty HG) | exact Hk].
Qed.

Lemma owned_trees_are_well_formed_witness :
  let f := forest_of two_obs 2 1 0 in
  (trees f = [] /\ (0 <= maxTreeHeight f)%Z)
  /\ exists f1 f2,
      growForest f = Some f1
      /\ grow f1 2 = Some f2
      /\ List.length (trees f2) = (forestSize f + 2)%nat
      /\ maxTreeHeight f2 = maxTreeHeight f
      /\ Forall (fun t =>
                   (node_depth (root t) <= maxTreeHeight f2)%Z
                   /\ sizes_add_up (root t)
                   /\ left_nonempty (root t)
                   /\ split_kind_ok (n_num_attrs f2) (root t))
                (trees f2).
Proof.
  cbv zeta.
  assert (Ht : trees (forest_of two_obs 2 1 0) = []) by reflexivity.
  assert (Hh : (0 <= maxTreeHeight (forest_of two_obs 2 1 0))%Z)
    by (vm_compute; discriminate).
  split; [split; [exact Ht | exact Hh] |].
  exact (owned_trees_are_well_formed (forest_of two_obs 2 1 0) 2 Ht Hh).
Defined.

Lemma averagePathLength_0 : averagePathLength 0 = DNaN.
Proof.
  unfold averagePathLength, D_of_nat. cbv zeta.
  rewrite !Dsub_fin. cbn [Dlog INR].
  rewrite (Rzero_b_false (r := 0 - 1)) by lra.
  rewrite (Rneg_b_true (r := 0 - 1)) by lra.
  reflexivity.
Qed.

(** X14.  [averagePathLength] is NaN at 0 and minus infinity at 1, but
    [pathLength] only calls it at a leaf that records two observations
    or more: for every forest, observation, tree and starting length,
    [pathLength] returns a finite value that is not below the starting
    length. *)
Theorem pathLength_is_finite (G : URBG) (f : IsolationForest G)
    (ob : nat) (node : Node) (length : Z) :
  averagePathLength 0 = DNaN
  /\ averagePathLength 1 = DInf true
  /\ exists r, pathLength f ob node length = DFin r /\ IZR length <= r.
Proof.
  split; [exact averagePathLength_0 |].
  split; [exact averagePathLength_1 |].
  apply pathLength_finite.
Qed.

(** The sum of line 128 is at least the path length in any one tree. *)
Lemma sum_pathLength_ge (G : URBG) (f : IsolationForest G) ob t x :
  In t (trees f) -> pathLength f ob (root t) 0 = DFin x ->
  exists s, sum_pathLength f ob = DFin s /\ x <= s.
Proof.
  intros Hin Hx. unfold sum_pathLength.
  assert (H : forall ts acc,
            exists s,
              fold_left
                (fun avg tree => Dadd avg (pathLength f ob (root tree) 0))
                ts (DFin acc) = DFin s
              /\ acc <= s /\ (In t ts -> acc + x <= s)).
  { induction ts as [| u ts IH]; intros acc; cbn [fold_left].
    - exists acc. split; [reflexivity |]. split; [lra | intros []].
    - destruct (pathLength_finite f ob (root u) 0) as (y & Ey & Hy).
      rewrite Ey. cbn [Dadd].
      destruct (IH (acc + y)) as (s & Es & Hs1 & Hs2).
      exists s. split; [exact Es |]. simpl in Hy. split; [lra |].
      intros [-> | Hin'].
      + rewrite Hx in Ey. injection Ey as ->. lra.
      + specialize (Hs2 Hin'). lra. }
  destruct (H (trees f) 0) as (s & Es & _ & Hs).
  exists s. split; [exact Es |]. specialize (Hs Hin). lra.
Qed.

(** From an internal node every path length is at least 1. *)
Lemma pathLength_internal_ge_1 (G : URBG) (f : IsolationForest G) ob t :
  isExNode t = false ->
  exists x, pathLength f ob t 0 = DFin x /\ 1 <= x.
Proof.
  destruct t as [k | a v c k l r]; [discriminate |]. intros _.
  cbn [pathLength].
  destruct (pathLength_finite f ob l (0 + 1)) as (y1 & Ey1 & Hy1).
  destruct (pathLength_finite f ob r (0 + 1)) as (y2 & Ey2 & Hy2).
  rewrite Ey1, Ey2. simpl in Hy1, Hy2.
  destruct (_ <? _)%nat; [destruct (fle _ _); eauto |].
  destruct (_ <? _)%nat; [eauto |].
  destruct (_ <? _)%nat; [eauto |].
  destruct (_ <=? _)%Z; eauto.
Qed.

(** With [maxTreeHeight >= 1], a tree grown from two indices or more
    has an internal root. *)
Lemma Grown_root_internal (G : URBG) (f : IsolationForest G)
    sample g t g' :
  Grown f sample 0 g t g' ->
  (2 <= List.length sample)%nat -> (1 <= maxTreeHeight f)%Z ->
  isExNode t = false.
Proof.
  intros HG Hn Hh.
  inversion HG as [? ? ? Hstop | | ]; subst; [lia | |]; reflexivity.
Qed.

(** X15.  A forest constructed with [forestSize = 0] and populated by
    a job [grow(jobs)] alone ([jobs >= 1], [treeSize >= 2], two
    observations or more) owns [jobs] trees, but line 129 divides the
    positive sum of path lengths by [forestSize = 0]: the average is
    plus infinity and [anomalyScore] returns 0 for every observation. *)
Theorem anomalyScore_is_zero_after_grow_alone (G : URBG) (d : DataSource)
    (tSize seed jobs : nat) :
  (2 <= tSize)%nat -> (2 <= num_dim1 d)%nat -> (1 <= jobs)%nat ->
  exists f',
    grow (IsolationForest_new G d tSize 0 seed) jobs = Some f'
    /\ List.length (trees f') = jobs
    /\ forestSize f' = 0%nat
    /\ forall ob,
         average_pathLength f' ob = DInf false
         /\ anomalyScore f' ob = DFin 0.
Proof.
  intros Hts Hobs Hjobs.
  set (f0 := IsolationForest_new G d tSize 0 seed).
  destruct (@grow_loop_grown G jobs f0 (iota (nObs f0)) []
              ltac:(intros i [])) as (f' & new & E & Ht & Hl & Hall & Hs).
  destruct Hs as (_ & Hts' & Hfs' & _).
  cbn [f0 IsolationForest_new trees treeSize forestSize nObs app] in *.
  exists f'. split; [exact E |].
  split; [now rewrite Ht |]. split; [exact Hfs' |].
  intros ob.
  destruct new as [| t new]; [simpl in Hl; lia |].
  apply Forall_inv in Hall.
  destruct Hall as (sample & g & g' & HG & Hsize & _).
  unfold iota in Hsize. rewrite length_seq in Hsize.
  assert (Hint : isExNode (root t) = false).
  { apply (Grown_root_internal HG); [lia |].
    cbn [f0 IsolationForest_new maxTreeHeight]. unfold ceil_log2.
    pose proof (Z.log2_up_pos (Z.of_nat tSize)). lia. }
  destruct (pathLength_internal_ge_1 f' ob _ Hint) as (x & Ex & Hx).
  destruct (@sum_pathLength_ge G f' ob t x) as (s & Es & Hsum);
    [rewrite Ht; now left | exact Ex |].
  assert (Havg : average_pathLength f' ob = DInf false).
  { unfold average_pathLength, D_of_nat. rewrite Es, Hfs'.
    cbn [INR Ddiv]. rewrite (Rzero_b_true (r := 0)) by reflexivity.
    rewrite (Rzero_b_false (r := s)) by lra.
    now rewrite (Rneg_b_false (r := s)) by lra. }
  split; [exact Havg |].
  unfold anomalyScore. cbv zeta. rewrite Havg, Hts'.
  rewrite averagePathLength_finite by lia.
  pose proof (averagePathLength_R_pos Hts).
  cbn [Dneg negb Ddiv].
  rewrite Rneg_b_false by lra. reflexivity.
Qed.

Lemma anomalyScore_is_zero_after_grow_alone_witness :
  ((2 <= 2)%nat /\ (2 <= num_dim1 two_obs)%nat /\ (1 <= 1)%nat)
  /\ exists f',
      grow (IsolationForest_new LCG.urbg two_obs 2 0 0) 1 = Some f'
      /\ List.length (trees f') = 1%nat
      /\ forestSize f' = 0%nat
      /\ forall ob,
           average_pathLength f' ob = DInf false
           /\ anomalyScore f' ob = DFin 0.
Proof.
  split; [repeat split; simpl; lia |].
  apply (@anomalyScore_is_zero_after_grow_alone LCG.urbg two_obs 2 0 1);
    simpl; lia.
Defined.
